(** * Real-time chat fan-out core of matching-api

    A shallow embedding of [internal/handlers/chat/websocket.go]: the hub
    that maps user ids to live WebSocket connections, the two pumps of a
    connection, and the publish entry point used by the message handler.

    Go values are modelled as follows.
    - [*Connection] is an address in a heap of [Connection] structs, so the
      pointer comparison [c == conn] of the hub is equality of addresses and
      a channel closed through one alias is closed for every alias.
    - [chan []byte] with a buffer is a record holding its capacity, the
      buffered frames (oldest first) and the closed flag.  Sending on a
      closed channel and closing a closed channel panic, as in Go.
    - [map[string][]*Connection] is a [gmap string (list ptr)].
    - [encoding/json] and the SQL lookup of the chat's two users are not part
      of this repository; they are parameters of the development. *)

From Stdlib Require Import Strings.Ascii Strings.String.
From stdpp Require Import gmap strings list fin_maps.

(** ** Outcomes of a piece of Go code *)

(** [Ok] is normal completion; [Panic] is a run-time panic, which in an
    unrecovered goroutine ends the process; [Blocked] means the goroutine
    cannot proceed in this state (a blocking send on a full channel, a
    receive on an empty one, or a pump that is not at that point). *)
Inductive result (A : Type) : Type :=
| Ok (a : A)
| Panic (msg : string)
| Blocked.
Arguments Ok {A} a.
Arguments Panic {A} msg.
Arguments Blocked {A}.

Definition bind {A B : Type} (r : result A) (k : A -> result B) : result B :=
  match r with
  | Ok a => k a
  | Panic msg => Panic msg
  | Blocked => Blocked
  end.

Notation "'do' x <- r ; k" := (bind r (fun x => k))
  (at level 10, x name, r at level 100, k at level 200).

(** ** Frames and channels *)

(** A serialized frame, Go's [[]byte]. *)
Definition bytes : Type := list Byte.byte.

(** Address of a [Connection] struct. *)
Abbreviation ptr := nat.

(** The buffered channel [Send].  [sent] is history: every frame the channel
    ever accepted, oldest first.  No operation reads it. *)
Record Chan : Type := mkChan {
  cap : nat;
  buf : list bytes;
  closed : bool;
  sent : list bytes
}.

(** [make(chan []byte, n)] *)
Definition make_chan (n : nat) : Chan := mkChan n [] false [].

Definition chan_push (message : bytes) (ch : Chan) : Chan :=
  mkChan (cap ch) (buf ch ++ [message]) (closed ch) (sent ch ++ [message]).

Definition chan_mark_closed (ch : Chan) : Chan :=
  mkChan (cap ch) (buf ch) true (sent ch).

Definition chan_pop (ch : Chan) : Chan :=
  mkChan (cap ch) (tail (buf ch)) (closed ch) (sent ch).

(** [close(ch)] *)
Definition chan_close (ch : Chan) : result Chan :=
  if closed ch then Panic "close of closed channel"
  else Ok (chan_mark_closed ch).

(** [ch <- message] outside a [select]: waits while the buffer is full. *)
Definition chan_send (message : bytes) (ch : Chan) : result Chan :=
  if closed ch then Panic "send on closed channel"
  else if length (buf ch) <? cap ch then Ok (chan_push message ch)
  else Blocked.

(** [select { case ch <- message: default: close(ch) }], the body of the loop
    of [sendToUser].  A send on a closed channel is ready, and panics. *)
Definition send_or_close (message : bytes) (ch : Chan) : result Chan :=
  if closed ch then Panic "send on closed channel"
  else if length (buf ch) <? cap ch then Ok (chan_push message ch)
  else chan_close ch.

(** ** Connections *)

(** The socket [*websocket.Conn] as far as this file uses it: whether
    [Close] was called on it, and the frames [WriteMessage] wrote. *)
Record Socket : Type := mkSocket {
  sock_closed : bool;
  sock_written : list bytes
}.

Definition open_socket : Socket := mkSocket false [].

(** [c.Conn.Close()]; a second close only returns an error, which is logged. *)
Definition socket_close (s : Socket) : Socket := mkSocket true (sock_written s).

Record Connection : Type := mkConnection {
  UserID : string;
  Conn : Socket;
  Send : Chan
}.

Definition with_Send (c : Connection) (ch : Chan) : Connection :=
  mkConnection (UserID c) (Conn c) ch.

Definition with_Conn (c : Connection) (s : Socket) : Connection :=
  mkConnection (UserID c) s (Send c).

(** Where the two goroutines started by [HandleWebSocket] are.  The reader
    is in its loop, or has left it and handed itself to [hub.unregister], or
    has run the deferred [Conn.Close]. *)
Inductive ReaderState : Type := RRunning | RExiting | RDone.

Record Pumps : Type := mkPumps {
  reader : ReaderState;
  writer : bool
}.

(** ** The system state *)

Record World : Type := mkWorld {
  connections : gmap string (list ptr);
  heap : gmap ptr Connection;
  pumps : gmap ptr Pumps
}.

Definition init : World := mkWorld ∅ ∅ ∅.

Definition set_connections (w : World) (m : gmap string (list ptr)) : World :=
  mkWorld m (heap w) (pumps w).

Definition set_heap (w : World) (h : gmap ptr Connection) : World :=
  mkWorld (connections w) h (pumps w).

Definition set_pumps (w : World) (g : gmap ptr Pumps) : World :=
  mkWorld (connections w) (heap w) g.

(** The slice [h.connections[userID]]; a missing key reads as the nil slice. *)
Definition conns_of (w : World) (userID : string) : list ptr :=
  default [] (connections w !! userID).

(** ** The message envelope *)

(** [WebSocketMessage]; [Payload] stands for [interface{}] of the field
    [Message], where [None] is the nil interface.  The field [Type] is
    spelled [Type_], and [UserID] is spelled [UserID_] to keep it apart from
    the field of [Connection]. *)
Record WebSocketMessage (Payload : Type) : Type := mkMsg {
  Type_ : string;
  ChatID : string;
  Message : option Payload;
  UserID_ : string
}.
Arguments mkMsg {Payload} _ _ _ _.
Arguments Type_ {Payload} _.
Arguments ChatID {Payload} _.
Arguments Message {Payload} _.
Arguments UserID_ {Payload} _.

(** [models.MessageRequest] and [models.Message] (without [CreatedAt], which
    [SendMessage] leaves at its zero value). *)
Record MessageRequest : Type := mkMessageRequest {
  req_Content : string;
  req_MessageType : string
}.

Record ModelMessage : Type := mkModelMessage {
  msg_ID : string;
  msg_ChatID : string;
  msg_SenderID : string;
  msg_Content : string;
  msg_MessageType : string;
  msg_IsRead : bool
}.

(** What one call of [SendMessage] meets outside the hub: the user the
    middleware put in the context, the URL parameter, the parsed and
    validated body, and the results of its two queries ([None] is an error). *)
Record SendMessageCall : Type := mkCall {
  call_user : option string;
  call_chatID : string;
  call_body : option MessageRequest;
  call_access : option bool;
  call_insert : option string
}.

Section Core.

Variable Payload : Type.

(** A [*models.Message] stored in the [interface{}] field. *)
Variable to_iface : ModelMessage -> Payload.

(** [json.Marshal] and [json.Unmarshal]; [None] is a non-nil error. *)
Variable json_Marshal : WebSocketMessage Payload -> option bytes.
Variable json_Unmarshal : bytes -> option (WebSocketMessage Payload).

(** [database.DB]: [None] is the nil handle, otherwise the function is the
    query of [broadcastToChat] followed by [Scan]: the two users of the chat
    with an active match, or [None] when [Scan] returns an error. *)
Variable database_DB : option (string -> option (string * string)).

(** ** Hub.run *)

(** case conn := <-h.register *)
Definition hub_register (conn : ptr) (w : World) : result World :=
  match heap w !! conn with
  | None => Panic "nil pointer dereference"
  | Some c =>
      Ok (set_connections w
            (<[UserID c := conns_of w (UserID c) ++ [conn]]> (connections w)))
  end.

(** Index of the first element of the slice equal to [conn]. *)
Definition index_of (conn : ptr) (l : list ptr) : option nat :=
  fst <$> list_find (λ c, c = conn) l.

(** case conn := <-h.unregister *)
Definition hub_unregister (conn : ptr) (w : World) : result World :=
  match heap w !! conn with
  | None => Panic "nil pointer dereference"
  | Some c =>
      match connections w !! UserID c with
      | None => Ok w
      | Some conns =>
          do w1 <- match index_of conn conns with
                | Some i =>
                    do ch <- chan_close (Send c);
                    Ok (mkWorld
                          (<[UserID c := take i conns ++ drop (S i) conns]>
                             (connections w))
                          (<[conn := with_Send c ch]> (heap w))
                          (pumps w))
                | None => Ok w
                end;
          if decide (length (conns_of w1 (UserID c)) = 0)
          then Ok (set_connections w1 (delete (UserID c) (connections w1)))
          else Ok w1
      end
  end.

(** One iteration of the loop of [sendToUser]. *)
Definition deliver (message : bytes) (w : World) (conn : ptr) : result World :=
  match heap w !! conn with
  | None => Panic "nil pointer dereference"
  | Some c =>
      do ch <- send_or_close message (Send c);
      Ok (set_heap w (<[conn := with_Send c ch]> (heap w)))
  end.

Fixpoint deliver_all (message : bytes) (w : World) (conns : list ptr)
  : result World :=
  match conns with
  | [] => Ok w
  | conn :: rest => do w1 <- deliver message w conn; deliver_all message w1 rest
  end.

Definition sendToUser (userID : string) (message : bytes) (w : World)
  : result World :=
  match connections w !! userID with
  | None => Ok w
  | Some conns => deliver_all message w conns
  end.

Definition broadcastToChat (chatID : string) (message : bytes) (w : World)
  : result World :=
  match database_DB with
  | None => Ok w
  | Some query =>
      match query chatID with
      | None => Ok w
      | Some (user1ID, user2ID) =>
          do w1 <- sendToUser user1ID message w;
          sendToUser user2ID message w1
      end
  end.

(** case message := <-h.broadcast *)
Definition hub_broadcast (message : bytes) (w : World) : result World :=
  match json_Unmarshal message with
  | None => Ok w
  | Some wsMsg =>
      if decide (ChatID wsMsg = "") then Ok w
      else broadcastToChat (ChatID wsMsg) message w
  end.

(** ** BroadcastMessage, the publish entry point *)

Definition new_message (chatID : string) (message : Payload)
  : WebSocketMessage Payload :=
  mkMsg "new_message" chatID (Some message) "".

(** [hub.broadcast] is unbuffered: the caller resumes once the hub has taken
    the frame, and the hub then runs its broadcast case. *)
Definition BroadcastMessage (chatID : string) (message : Payload) (w : World)
  : result World :=
  match json_Marshal (new_message chatID message) with
  | Some data => hub_broadcast data w
  | None => Ok w
  end.

(** ** SendMessage, the caller of BroadcastMessage *)

(** The [models.Message] the handler builds for its answer and for the
    broadcast; an empty message type was replaced by [text] before. *)
Definition stored_message (call : SendMessageCall) (userID messageID : string)
    (req : MessageRequest) : ModelMessage :=
  mkModelMessage messageID (call_chatID call) userID (req_Content req)
    (if decide (req_MessageType req = "") then "text" else req_MessageType req)
    false.

(** The handler answers with an HTTP status.  The update of the chat's
    timestamp only logs its error and is left out. *)
Definition SendMessage (call : SendMessageCall) (w : World)
  : result (nat * World) :=
  match call_user call with
  | None => Ok (401, w)
  | Some userID =>
      if decide (call_chatID call = "") then Ok (400, w)
      else match call_body call with
      | None => Ok (400, w)
      | Some req =>
          match database_DB with
          | None => Ok (500, w)
          | Some _ =>
              match call_access call with
              | None => Ok (500, w)
              | Some false => Ok (404, w)
              | Some true =>
                  match call_insert call with
                  | None => Ok (500, w)
                  | Some messageID =>
                      let message := stored_message call userID messageID req in
                      do w1 <- BroadcastMessage (call_chatID call)
                                 (to_iface message) w;
                      Ok (201, w1)
                  end
              end
          end
      end
  end.

(** ** readPump *)

(** What one iteration of the reader loop does with a frame it has read. *)
Inductive ReadAction : Type :=
| Discard
| ToHub (data : bytes)       (* hub.broadcast <- data *)
| ToSelf (data : bytes).     (* c.Send <- data *)

Definition stamp (wsMsg : WebSocketMessage Payload) (userID : string)
  : WebSocketMessage Payload :=
  mkMsg (Type_ wsMsg) (ChatID wsMsg) (Message wsMsg) userID.

Definition pong : WebSocketMessage Payload := mkMsg "pong" "" None "".

Definition readPump_handle (c : Connection) (message : bytes) : ReadAction :=
  match json_Unmarshal message with
  | None => Discard
  | Some wsMsg =>
      if decide (Type_ wsMsg = "typing") then
        match json_Marshal (stamp wsMsg (UserID c)) with
        | Some data => ToHub data
        | None => Discard
        end
      else if decide (Type_ wsMsg = "ping") then
        match json_Marshal pong with
        | Some data => ToSelf data
        | None => Discard
        end
      else Discard
  end.

(** ** HandleWebSocket, after the upgrade succeeded *)

Definition new_connection (userID : string) : Connection :=
  mkConnection userID open_socket (make_chan 256).

(** A fresh [Connection] is allocated and handed to [hub.register], which is
    unbuffered, so the hub runs its register case; then both pumps start. *)
Definition HandleWebSocket (userID : string) (w : World) : result World :=
  let connection := fresh (dom (heap w)) in
  do w1 <- hub_register connection
             (set_heap w (<[connection := new_connection userID]> (heap w)));
  Ok (set_pumps w1 (<[connection := mkPumps RRunning true]> (pumps w1))).

(** ** The steps of the system *)

(** The hub goroutine is the only one that touches [connections], and it
    finishes one case before it takes the next value, so a case of [Hub.run]
    is one step.  The pumps take their steps in between, in any order. *)
Inductive Event : Type :=
| Accept (userID : string)                    (* HandleWebSocket *)
| Publish (chatID : string) (message : Payload) (* BroadcastMessage *)
| Inbound (conn : ptr) (message : bytes)      (* ReadMessage returned a frame *)
| ReadErr (conn : ptr)                        (* ReadMessage returned an error *)
| ReaderClose (conn : ptr)                    (* the reader's deferred Close *)
| WriteFrame (conn : ptr) (ok : bool)         (* the writer takes a frame *)
| WriterEnd (conn : ptr).                     (* range over Send is over *)

Definition set_reader (conn : ptr) (r : ReaderState) (w : World) : World :=
  match pumps w !! conn with
  | Some g => set_pumps w (<[conn := mkPumps r (writer g)]> (pumps w))
  | None => w
  end.

Definition set_writer (conn : ptr) (b : bool) (w : World) : World :=
  match pumps w !! conn with
  | Some g => set_pumps w (<[conn := mkPumps (reader g) b]> (pumps w))
  | None => w
  end.

(** One iteration of the loop of [readPump] on a frame. *)
Definition readPump_frame (conn : ptr) (message : bytes) (w : World)
  : result World :=
  match pumps w !! conn, heap w !! conn with
  | Some (mkPumps RRunning _), Some c =>
      if sock_closed (Conn c) then Blocked
      else match readPump_handle c message with
           | Discard => Ok w
           | ToHub data => hub_broadcast data w
           | ToSelf data =>
               do ch <- chan_send data (Send c);
               Ok (set_heap w (<[conn := with_Send c ch]> (heap w)))
           end
  | _, _ => Blocked
  end.

(** [readPump] leaves its loop; the deferred function first hands the
    connection to [hub.unregister]. *)
Definition readPump_exit (conn : ptr) (w : World) : result World :=
  match pumps w !! conn with
  | Some (mkPumps RRunning _) =>
      do w1 <- hub_unregister conn w;
      Ok (set_reader conn RExiting w1)
  | _ => Blocked
  end.

(** ... and then closes the socket. *)
Definition readPump_close (conn : ptr) (w : World) : result World :=
  match pumps w !! conn, heap w !! conn with
  | Some (mkPumps RExiting _), Some c =>
      Ok (set_reader conn RDone
            (set_heap w (<[conn := with_Conn c (socket_close (Conn c))]> (heap w))))
  | _, _ => Blocked
  end.

(** [WriteMessage] on a socket: an error when the socket was closed or when
    the network write fails ([ok] is false). *)
Definition WriteMessage (s : Socket) (message : bytes) (ok : bool)
  : option Socket :=
  if sock_closed s then None
  else if ok then Some (mkSocket false (sock_written s ++ [message]))
  else None.

(** One iteration of [for message := range c.Send] in [writePump]; on a write
    error the pump returns and its deferred function closes the socket. *)
Definition writePump_frame (conn : ptr) (ok : bool) (w : World)
  : result World :=
  match pumps w !! conn, heap w !! conn with
  | Some (mkPumps _ true), Some c =>
      match buf (Send c) with
      | [] => Blocked
      | message :: _ =>
          let c1 := with_Send c (chan_pop (Send c)) in
          match WriteMessage (Conn c1) message ok with
          | Some s => Ok (set_heap w (<[conn := with_Conn c1 s]> (heap w)))
          | None =>
              Ok (set_writer conn false
                    (set_heap w
                       (<[conn := with_Conn c1 (socket_close (Conn c1))]>
                          (heap w))))
          end
      end
  | _, _ => Blocked
  end.

(** The range loop ends when [Send] is closed and drained. *)
Definition writePump_end (conn : ptr) (w : World) : result World :=
  match pumps w !! conn, heap w !! conn with
  | Some (mkPumps _ true), Some c =>
      match buf (Send c), closed (Send c) with
      | [], true =>
          Ok (set_writer conn false
                (set_heap w
                   (<[conn := with_Conn c (socket_close (Conn c))]> (heap w))))
      | _, _ => Blocked
      end
  | _, _ => Blocked
  end.

Definition step (w : World) (ev : Event) : result World :=
  match ev with
  | Accept userID => HandleWebSocket userID w
  | Publish chatID message => BroadcastMessage chatID message w
  | Inbound conn message => readPump_frame conn message w
  | ReadErr conn => readPump_exit conn w
  | ReaderClose conn => readPump_close conn w
  | WriteFrame conn ok => writePump_frame conn ok w
  | WriterEnd conn => writePump_end conn w
  end.

Fixpoint run (w : World) (evs : list Event) : result World :=
  match evs with
  | [] => Ok w
  | ev :: rest => do w1 <- step w ev; run w1 rest
  end.

(** The states the system can be in: those a run from the empty hub reaches. *)
Definition reachable (w : World) : Prop := ∃ evs, run init evs = Ok w.

End Core.

Arguments new_message {Payload} _ _.
Arguments stamp {Payload} _ _.
Arguments pong {Payload}.
Arguments hub_broadcast {Payload} _ _ _ _.
Arguments BroadcastMessage {Payload} _ _ _ _ _ _.
Arguments readPump_handle {Payload} _ _ _ _.
Arguments readPump_frame {Payload} _ _ _ _ _ _.
Arguments Accept {Payload} _.
Arguments Publish {Payload} _ _.
Arguments Inbound {Payload} _ _.
Arguments ReadErr {Payload} _.
Arguments ReaderClose {Payload} _.
Arguments WriteFrame {Payload} _ _.
Arguments WriterEnd {Payload} _.
Arguments step {Payload} _ _ _ _ _.
Arguments SendMessage {Payload} _ _ _ _ _ _.
Arguments run {Payload} _ _ _ _ _.
Arguments reachable {Payload} _ _ _ _.

(** ** utils: the answers of the HTTP handlers *)

(** [models.APIResponse] and [models.ErrorResponse], the two bodies the
    writers of [utils] encode. *)
Inductive Body (D : Type) : Type :=
| APIResponse (Success : bool) (Message_ : string) (Data : D)
| ErrorResponse (Success : bool) (Error : string) (Code : nat).
Arguments APIResponse {D} _ _ _.
Arguments ErrorResponse {D} _ _ _.

(** What a handler wrote: the status line and the encoded body. *)
Record Response (D : Type) : Type := mkResponse {
  statusCode : nat;
  body : Body D
}.
Arguments mkResponse {D} _ _.
Arguments statusCode {D} _.
Arguments body {D} _.

Definition WriteJSONResponse {D : Type} (statusCode : nat) (data : Body D)
  : Response D :=
  mkResponse statusCode data.

Definition WriteSuccessResponse {D : Type} (message : string) (data : D)
  : Response D :=
  WriteJSONResponse 200 (APIResponse true message data).

Definition WriteErrorResponse {D : Type} (message : string) (statusCode : nat)
  : Response D :=
  WriteJSONResponse statusCode (ErrorResponse false message statusCode).

Definition WriteValidationError {D : Type} (err : string) : Response D :=
  WriteErrorResponse ("Validation error: " +:+ err) 400.

Definition WriteInternalError {D : Type} : Response D :=
  WriteErrorResponse "Internal server error" 500.

Definition WriteUnauthorized {D : Type} (message : string) : Response D :=
  WriteErrorResponse (if decide (message = "") then "Unauthorized" else message)
    401.

Definition WriteForbidden {D : Type} (message : string) : Response D :=
  WriteErrorResponse (if decide (message = "") then "Forbidden" else message)
    403.

Definition WriteNotFound {D : Type} (message : string) : Response D :=
  WriteErrorResponse
    (if decide (message = "") then "Resource not found" else message) 404.

Definition WriteCreated {D : Type} (message : string) (data : D) : Response D :=
  WriteJSONResponse 201 (APIResponse true message data).

(** ** GetMessages *)

(** The statements [GetMessages] sends to the database, with their
    arguments. *)
Inductive Statement : Type :=
| CheckAccess (chatID userID : string)
| SelectMessages (chatID : string) (limit offset : Z)
| MarkRead (chatID userID : string).

(** The database as [GetMessages] meets it.  The access query gives
    [matchExists] or an error; the select gives its rows or an error, and
    each row scans into a message or fails to; the update's error is only
    logged.  [Row] is a scanned [models.Message]. *)
Record ChatDB (Row : Type) : Type := mkChatDB {
  access_query : string -> string -> option bool;
  messages_query : string -> Z -> Z -> option (list (option Row))
}.
Arguments mkChatDB {Row} _ _.
Arguments access_query {Row} _ _ _.
Arguments messages_query {Row} _ _ _ _.

(** The request: the user in the context, the URL parameter and the two
    query parameters ([Get] gives the empty string for a missing one). *)
Record GetMessagesCall : Type := mkGetMessagesCall {
  gm_user : option string;
  gm_chatID : string;
  gm_limit : string;
  gm_offset : string
}.

(** The data of the answer. *)
Record MessagesPage (Row : Type) : Type := mkPage {
  page_messages : list Row;
  page_total : nat;
  page_limit : Z;
  page_offset : Z
}.
Arguments mkPage {Row} _ _ _ _.
Arguments page_messages {Row} _.
Arguments page_total {Row} _.
Arguments page_limit {Row} _.
Arguments page_offset {Row} _.

Section GetMessages.

Variable Row : Type.

(** [strconv.Atoi]; [None] is an error. *)
Variable Atoi : string -> option Z.

(** [database.DB], [None] being the nil handle. *)
Variable database : option (ChatDB Row).

Definition page_limit_of (limitStr : string) : Z :=
  let limit := 50%Z in
  if decide (limitStr = "") then limit
  else match Atoi limitStr with
       | Some l => if decide (0 < l ∧ l ≤ 100)%Z then l else limit
       | None => limit
       end.

Definition page_offset_of (offsetStr : string) : Z :=
  let offset := 0%Z in
  if decide (offsetStr = "") then offset
  else match Atoi offsetStr with
       | Some o => if decide (0 ≤ o)%Z then o else offset
       | None => offset
       end.

(** The loop over [rows.Next()]: a row that fails to scan is skipped. *)
Fixpoint scan_rows (rows : list (option Row)) (messages : list Row) : list Row :=
  match rows with
  | [] => messages
  | Some message :: rest => scan_rows rest (messages ++ [message])
  | None :: rest => scan_rows rest messages
  end.

(** The answer, and the statements sent to the database, in order. *)
Definition GetMessages (call : GetMessagesCall)
  : Response (MessagesPage Row) * list Statement :=
  match gm_user call with
  | None => (WriteUnauthorized "User not found in context", [])
  | Some userID =>
      let chatID := gm_chatID call in
      if decide (chatID = "")
      then (WriteErrorResponse "Chat ID is required" 400, [])
      else match database with
      | None => (WriteInternalError, [])
      | Some db =>
          match access_query db chatID userID with
          | None => (WriteInternalError, [CheckAccess chatID userID])
          | Some false =>
              (WriteErrorResponse "Chat not found or access denied" 404,
               [CheckAccess chatID userID])
          | Some true =>
              let limit := page_limit_of (gm_limit call) in
              let offset := page_offset_of (gm_offset call) in
              match messages_query db chatID limit offset with
              | None =>
                  (WriteInternalError,
                   [CheckAccess chatID userID;
                    SelectMessages chatID limit offset])
              | Some rows =>
                  let messages := scan_rows rows [] in
                  (WriteSuccessResponse "Messages retrieved successfully"
                     (mkPage messages (length messages) limit offset),
                   [CheckAccess chatID userID;
                    SelectMessages chatID limit offset;
                    MarkRead chatID userID])
              end
          end
      end
  end.

End GetMessages.

Arguments page_limit_of _ _ : clear implicits.
Arguments page_offset_of _ _ : clear implicits.
Arguments scan_rows {Row} _ _.
Arguments GetMessages {Row} _ _ _.

(** ** HandleWebSocket, the whole handler *)

(** The handler answers 401 when the context has no user, leaves the answer
    to the upgrader when the upgrade fails, and otherwise goes on as
    [HandleWebSocket] above with the user id of the claims. *)
Definition HandleWebSocket_handler (user : option string) (upgraded : bool)
    (w : World) : option (Response unit) * result World :=
  match user with
  | None => (Some (WriteUnauthorized "User not found in context"), Ok w)
  | Some userID =>
      if upgraded then (None, HandleWebSocket userID w) else (None, Ok w)
  end.

(** ** Predicates used in the statements *)

(** What the non-blocking send of [sendToUser] leaves of an open channel:
    the frame is appended when there is room, and the channel is closed
    when there is none. *)
Definition offer (message : bytes) (ch : Chan) : Chan :=
  if length (buf ch) <? cap ch then chan_push message ch
  else chan_mark_closed ch.

Definition has_room (ch : Chan) : Prop := length (buf ch) < cap ch.

Definition is_full (ch : Chan) : Prop := cap ch ≤ length (buf ch).

(** [conn] is in the slice the hub keeps for [userID]. *)
Definition registered_under (w : World) (userID : string) (conn : ptr) : Prop :=
  conn ∈ conns_of w userID.

(** [conn] is in the slice of some user. *)
Definition registered (w : World) (conn : ptr) : Prop :=
  ∃ userID, registered_under w userID conn.

(** Number of entries the hub holds for [conn] under [userID]. *)
Definition entries (w : World) (userID : string) (conn : ptr) : nat :=
  length (filter (λ c, c = conn) (conns_of w userID)).

(** Every slice in the map is non-empty and without repetition, and holds
    only connections of the user it is filed under. *)
Definition registry_wf (w : World) : Prop :=
  ∀ userID conns, connections w !! userID = Some conns →
    conns ≠ [] ∧ NoDup conns ∧
    ∀ conn, conn ∈ conns → ∃ c, heap w !! conn = Some c ∧ UserID c = userID.

(** No registered connection has a closed socket. *)
Definition registry_sockets_open (w : World) : Prop :=
  ∀ conn c, registered w conn → heap w !! conn = Some c →
    sock_closed (Conn c) = false.

(** [c'] is [c] after some copies of [message] were put on its queue and the
    queue was possibly closed. *)
Definition conn_fed (message : bytes) (c c' : Connection) : Prop :=
  UserID c' = UserID c ∧ Conn c' = Conn c ∧ cap (Send c') = cap (Send c) ∧
  ∃ n, buf (Send c') = buf (Send c) ++ replicate n message ∧
       sent (Send c') = sent (Send c) ++ replicate n message.

Definition heap_fed (message : bytes) (h h' : gmap ptr Connection) : Prop :=
  ∀ conn, option_Forall2 (conn_fed message) (h !! conn) (h' !! conn).

(** The writer of [conn] is still in its loop. *)
Definition writer_running (w : World) (conn : ptr) : Prop :=
  ∃ g, pumps w !! conn = Some g ∧ writer g = true.

(** The participant lookup of [broadcastToChat] fails for [chatID]: the
    database handle is nil or the query returns an error. *)
Definition resolver_fails (db : option (string -> option (string * string)))
    (chatID : string) : Prop :=
  ∀ query, db = Some query → query chatID = None.

(** The lookup succeeds with the two users [A] and [B]. *)
Definition resolves_to (db : option (string -> option (string * string)))
    (chatID A B : string) : Prop :=
  ∃ query, db = Some query ∧ query chatID = Some (A, B).

(** [SendMessage] got as far as storing the message: the user [userID] is
    in the context, the body [req] is valid, the user has access to the
    chat, and the insert returned [messageID]. *)
Definition persisted (call : SendMessageCall) (userID : string)
    (req : MessageRequest) (messageID : string) : Prop :=
  call_user call = Some userID ∧ call_chatID call ≠ "" ∧
  call_body call = Some req ∧ call_access call = Some true ∧
  call_insert call = Some messageID.

(** The frames a queue ever accepted are, in this order, those its writer
    wrote, at most one frame the writer took when it stopped, and those
    still waiting. *)
Definition fifo_inv (w : World) : Prop :=
  ∀ conn c, heap w !! conn = Some c →
    ∃ lost, sent (Send c) = sock_written (Conn c) ++ lost ++ buf (Send c) ∧
            (writer_running w conn → lost = []).

(** What any step other than a step of its writer may do to a connection:
    the user, the capacity and the frames written stay, a closed socket stays
    closed, a closed queue stays as it is, and the queue does not grow beyond
    its capacity. *)
Definition conn_quiet (c c' : Connection) : Prop :=
  UserID c' = UserID c ∧ cap (Send c') = cap (Send c) ∧
  sock_written (Conn c') = sock_written (Conn c) ∧
  (sock_closed (Conn c) = true → sock_closed (Conn c') = true) ∧
  (closed (Send c) = true → Send c' = Send c) ∧
  (length (buf (Send c')) ≤ length (buf (Send c)) ∨
   length (buf (Send c')) ≤ cap (Send c)).

(** What any step may do to a connection. *)
Definition conn_evolves (c c' : Connection) : Prop :=
  UserID c' = UserID c ∧ cap (Send c') = cap (Send c) ∧
  (sock_closed (Conn c) = true →
     sock_closed (Conn c') = true ∧
     sock_written (Conn c') = sock_written (Conn c)) ∧
  (closed (Send c) = true →
     closed (Send c') = true ∧ sent (Send c') = sent (Send c) ∧
     ∃ k, buf (Send c') = drop k (buf (Send c))) ∧
  (length (buf (Send c')) ≤ length (buf (Send c)) ∨
   length (buf (Send c')) ≤ cap (Send c)).

(** Every connection of [h] is still in [h'], changed as [R] allows. *)
Definition heap_rel (R : Connection -> Connection -> Prop)
    (h h' : gmap ptr Connection) : Prop :=
  ∀ conn c, h !! conn = Some c → ∃ c', h' !! conn = Some c' ∧ R c c'.

(** Every queue has the capacity [HandleWebSocket] gave it and holds no
    more frames than that. *)
Definition bounded_inv (w : World) : Prop :=
  ∀ conn c, heap w !! conn = Some c →
    cap (Send c) = 256 ∧ length (buf (Send c)) ≤ 256.

(** The pumps and the registry: a connection with pumps exists; when its
    writer has returned, or its reader has run its deferred close, its
    socket is closed; when its reader has left its loop, it is in no slice
    of the registry. *)
Definition lifecycle_inv (w : World) : Prop :=
  ∀ conn g, pumps w !! conn = Some g →
    ∃ c, heap w !! conn = Some c ∧
      (writer g = false → sock_closed (Conn c) = true) ∧
      (reader g = RDone → sock_closed (Conn c) = true) ∧
      (reader g ≠ RRunning → ¬ registered w conn).

(** The type values of the wire contract. *)
Definition wire_types : list string :=
  ["new_message"; "typing"; "ping"; "pong"].

(** The type values of the wire contract that the server sends. *)
Definition outbound_types : list string := ["new_message"; "typing"; "pong"].


(** ** A concrete wire format and database, for running the model *)

Module Demo.

(** A codec for envelopes whose payload is a string.  It writes the JSON
    object [json.Marshal] writes for such an envelope (empty fields are
    omitted, as [omitempty] says), and reads back objects of that shape:
    string fields without escapes.  Anything else fails to decode. *)

Definition dq : ascii := ascii_of_nat 34.

Definition quoted (s : string) : string := String dq (s +:+ String dq "").

Definition field (key value : string) : string :=
  quoted key +:+ ":" +:+ quoted value.

Definition opt_field (key value : string) : string :=
  if decide (value = "") then "" else "," +:+ field key value.

Definition encode (m : WebSocketMessage string) : string :=
  "{" +:+ field "type" (Type_ m)
      +:+ opt_field "chat_id" (ChatID m)
      +:+ match Message m with
          | Some p => "," +:+ field "message" p
          | None => ""
          end
      +:+ opt_field "user_id" (UserID_ m)
      +:+ "}".

Definition Marshal (m : WebSocketMessage string) : option bytes :=
  Some (String.list_byte_of_string (encode m)).

(** The text up to the next double quote, and what follows the quote. *)
Fixpoint until_quote (s : string) : option (string * string) :=
  match s with
  | EmptyString => None
  | String a rest =>
      if decide (a = dq) then Some ("", rest)
      else '(v, rest') ← until_quote rest; Some (String a v, rest')
  end.

Definition set_field (key value : string) (m : WebSocketMessage string)
  : WebSocketMessage string :=
  if decide (key = "type") then mkMsg value (ChatID m) (Message m) (UserID_ m)
  else if decide (key = "chat_id")
       then mkMsg (Type_ m) value (Message m) (UserID_ m)
  else if decide (key = "message")
       then mkMsg (Type_ m) (ChatID m) (Some value) (UserID_ m)
  else if decide (key = "user_id")
       then mkMsg (Type_ m) (ChatID m) (Message m) value
  else m.

(** Fields, after the opening brace or a comma. *)
Fixpoint decode_fields (fuel : nat) (s : string) (m : WebSocketMessage string)
  : option (WebSocketMessage string) :=
  match fuel with
  | 0 => None
  | S fuel' =>
      match s with
      | String a rest =>
          if decide (a = dq) then
            '(key, rest1) ← until_quote rest;
            match rest1 with
            | String ":" (String b rest2) =>
                if decide (b = dq) then
                  '(value, rest3) ← until_quote rest2;
                  let m' := set_field key value m in
                  match rest3 with
                  | String "," rest4 => decode_fields fuel' rest4 m'
                  | String "}" EmptyString => Some m'
                  | _ => None
                  end
                else None
            | _ => None
            end
          else None
      | EmptyString => None
      end
  end.

Definition decode (s : string) : option (WebSocketMessage string) :=
  match s with
  | String "{" (String "}" EmptyString) => Some (mkMsg "" "" None "")
  | String "{" rest => decode_fields (String.length rest) rest (mkMsg "" "" None "")
  | _ => None
  end.

Definition Unmarshal (data : bytes) : option (WebSocketMessage string) :=
  decode (String.string_of_list_byte data).

(** A database with one chat, between alice and bob. *)
Definition DB : option (string -> option (string * string)) :=
  Some (λ chatID, if decide (chatID = "chat-1") then Some ("alice", "bob")
                  else None).

Definition frame (m : WebSocketMessage string) : bytes :=
  String.list_byte_of_string (encode m).

Definition run' : World -> list (Event string) -> result World :=
  run Marshal Unmarshal DB.

(** The payload of a stored message is its content. *)
Definition to_iface (m : ModelMessage) : string := msg_Content m.

(** The state a run ends in. *)
Definition state_after (evs : list (Event string)) : World :=
  match run' init evs with
  | Ok w => w
  | _ => init
  end.

Definition ping_frame : bytes := frame (mkMsg "ping" "" None "").

Definition typing_frame (chatID userID : string) : bytes :=
  frame (mkMsg "typing" chatID None userID).

(** alice has two connections (0 and 1), bob one (2) and carol one (3). *)
Definition four_sessions : list (Event string) :=
  [Accept "alice"; Accept "alice"; Accept "bob"; Accept "carol"].

(** alice has one connection, whose writer has not taken any of the 256
    frames broadcast to her chat. *)
Definition slow_consumer : list (Event string) :=
  Accept "alice" :: replicate 256 (Publish "chat-1" "hi").

(** alice's writer took a pong and failed to write it. *)
Definition write_failed : list (Event string) :=
  [Accept "alice"; Inbound 0 ping_frame; WriteFrame 0 false].

(** A valid call of [SendMessage] by alice. *)
Definition call_to (chatID : string) : SendMessageCall :=
  mkCall (Some "alice") chatID (Some (mkMessageRequest "hi" ""))
    (Some true) (Some "m-1").

End Demo.

(** * Properties *)

Section Properties.

Context {Payload : Type}.
Variable to_iface : ModelMessage -> Payload.
Variable json_Marshal : WebSocketMessage Payload -> option bytes.
Variable json_Unmarshal : bytes -> option (WebSocketMessage Payload).
Variable database_DB : option (string -> option (string * string)).

Local Abbreviation hub_broadcast := (hub_broadcast json_Unmarshal database_DB).
Local Abbreviation broadcastToChat := (broadcastToChat database_DB).
Local Abbreviation BroadcastMessage :=
  (BroadcastMessage json_Marshal json_Unmarshal database_DB).
Local Abbreviation SendMessage :=
  (SendMessage to_iface json_Marshal json_Unmarshal database_DB).
Local Abbreviation readPump_handle :=
  (readPump_handle json_Marshal json_Unmarshal).
Local Abbreviation readPump_frame :=
  (readPump_frame json_Marshal json_Unmarshal database_DB).
Local Abbreviation step := (step json_Marshal json_Unmarshal database_DB).
Local Abbreviation run := (run json_Marshal json_Unmarshal database_DB).
Local Abbreviation reachable :=
  (reachable json_Marshal json_Unmarshal database_DB).

(** A frame is well formed when it is the encoding of an envelope whose
    type is one the server sends. *)
Definition known_frame (data : bytes) : Prop :=
  ∃ m, json_Marshal m = Some data ∧ Type_ m ∈ outbound_types.

(** The hub reads back from the encoding of [m] the chat id [m] has. *)
Definition keeps_chat_id (m : WebSocketMessage Payload) : Prop :=
  ∀ data m', json_Marshal m = Some data → json_Unmarshal data = Some m' →
    ChatID m' = ChatID m.

(** What one step does to the connection at address [conn]: nothing was
    and nothing is there; or the connection is kept, frames [fs] were put at
    the end of its queue, and no writer was started; or it is the connection
    [HandleWebSocket] has just allocated; or its writer took the frame at the
    head of its queue and either wrote it or stopped. *)
Inductive effect (w w' : World) (conn : ptr) : Prop :=
| eff_absent :
    heap w !! conn = None → heap w' !! conn = None → effect w w' conn
| eff_kept c c' fs :
    heap w !! conn = Some c → heap w' !! conn = Some c' →
    UserID c' = UserID c →
    sock_written (Conn c') = sock_written (Conn c) →
    buf (Send c') = buf (Send c) ++ fs →
    sent (Send c') = sent (Send c) ++ fs →
    Forall known_frame fs →
    (writer_running w' conn → writer_running w conn) →
    effect w w' conn
| eff_fresh userID :
    heap w !! conn = None →
    heap w' !! conn = Some (new_connection userID) →
    effect w w' conn
| eff_wrote c c' message rest :
    heap w !! conn = Some c → heap w' !! conn = Some c' →
    writer_running w conn →
    buf (Send c) = message :: rest →
    UserID c' = UserID c →
    sent (Send c') = sent (Send c) →
    buf (Send c') = rest →
    sock_written (Conn c') = sock_written (Conn c) ++ [message] ∨
      (sock_written (Conn c') = sock_written (Conn c) ∧
       ¬ writer_running w' conn) →
    effect w w' conn.

(** Every frame a queue ever accepted is well formed. *)
Definition known_inv (w : World) : Prop :=
  ∀ conn c data, heap w !! conn = Some c → data ∈ sent (Send c) →
    known_frame data.

(** The reader of [conn] is in its loop and its socket was not closed, so
    [ReadMessage] can return a frame. *)
Definition reading (w : World) (conn : ptr) : Prop :=
  ∃ g c, pumps w !! conn = Some g ∧ reader g = RRunning ∧
         heap w !! conn = Some c ∧ sock_closed (Conn c) = false.

(** ** Channels *)

Lemma send_or_close_open message ch :
  closed ch = false → send_or_close message ch = Ok (offer message ch).
Proof.
  intros Hopen. unfold send_or_close, offer, chan_close. rewrite Hopen.
  by destruct (length (buf ch) <? cap ch).
Qed.

Lemma offer_room message ch :
  has_room ch → offer message ch = chan_push message ch.
Proof.
  unfold has_room, offer. intros H.
  by destruct (Nat.ltb_spec (length (buf ch)) (cap ch)); [|lia].
Qed.

Lemma offer_full message ch :
  is_full ch → offer message ch = chan_mark_closed ch.
Proof.
  unfold is_full, offer. intros H.
  by destruct (Nat.ltb_spec (length (buf ch)) (cap ch)); [lia|].
Qed.

Lemma send_or_close_fed message ch ch' :
  send_or_close message ch = Ok ch' →
  cap ch' = cap ch ∧
  ∃ n, buf ch' = buf ch ++ replicate n message ∧
       sent ch' = sent ch ++ replicate n message.
Proof.
  unfold send_or_close, chan_close. destruct (closed ch); [done|].
  destruct (length (buf ch) <? cap ch); intros [= <-]; simpl.
  - split; [done|]. by exists 1.
  - split; [done|]. exists 0. by rewrite !app_nil_r.
Qed.

(** ** The loop of sendToUser *)

Lemma conn_fed_refl message c : conn_fed message c c.
Proof.
  repeat split. exists 0. by rewrite !app_nil_r.
Qed.

Lemma conn_fed_trans message c1 c2 c3 :
  conn_fed message c1 c2 → conn_fed message c2 c3 → conn_fed message c1 c3.
Proof.
  intros (Hu & Hs & Hc & n & Hb & Hl) (Hu' & Hs' & Hc' & n' & Hb' & Hl').
  repeat split; try congruence.
  exists (n + n'). rewrite replicate_add, !app_assoc. by rewrite <- Hb, <- Hl.
Qed.

Lemma heap_fed_refl message h : heap_fed message h h.
Proof.
  intros conn. destruct (h !! conn); constructor. apply conn_fed_refl.
Qed.

Lemma heap_fed_trans message h1 h2 h3 :
  heap_fed message h1 h2 → heap_fed message h2 h3 → heap_fed message h1 h3.
Proof.
  intros H12 H23 conn. specialize (H12 conn). specialize (H23 conn).
  destruct H12; inversion H23; subst; constructor.
  eapply conn_fed_trans; eauto.
Qed.

Lemma deliver_fed message w conn w' :
  deliver message w conn = Ok w' →
  connections w' = connections w ∧ pumps w' = pumps w ∧
  heap_fed message (heap w) (heap w').
Proof.
  unfold deliver. destruct (heap w !! conn) as [c|] eqn:Hc; [|done].
  destruct (send_or_close message (Send c)) as [ch| |] eqn:Hs; [|done..].
  intros [= <-]. simpl. split; [done|]. split; [done|].
  intros q. destruct (decide (q = conn)) as [->|Hne].
  - rewrite lookup_insert_eq, Hc. constructor.
    destruct (send_or_close_fed _ _ _ Hs) as [Hcap Hn]. by repeat split.
  - rewrite lookup_insert_ne by done. apply heap_fed_refl.
Qed.

Lemma deliver_all_fed message conns w w' :
  deliver_all message w conns = Ok w' →
  connections w' = connections w ∧ pumps w' = pumps w ∧
  heap_fed message (heap w) (heap w').
Proof.
  revert w. induction conns as [|conn rest IH]; intros w; simpl.
  - intros [= <-]. split; [done|]. split; [done|]. apply heap_fed_refl.
  - destruct (deliver message w conn) as [w1| |] eqn:Hd; [|done..]. simpl.
    intros Hrest. apply deliver_fed in Hd as (Hc1 & Hp1 & Hh1).
    apply IH in Hrest as (Hc2 & Hp2 & Hh2).
    split; [congruence|]. split; [congruence|].
    eapply heap_fed_trans; eauto.
Qed.

Lemma sendToUser_fed userID message w w' :
  sendToUser userID message w = Ok w' →
  connections w' = connections w ∧ pumps w' = pumps w ∧
  heap_fed message (heap w) (heap w').
Proof.
  unfold sendToUser. destruct (connections w !! userID).
  - apply deliver_all_fed.
  - intros [= <-]. split; [done|]. split; [done|]. apply heap_fed_refl.
Qed.

Lemma broadcastToChat_fed chatID message w w' :
  broadcastToChat chatID message w = Ok w' →
  connections w' = connections w ∧ pumps w' = pumps w ∧
  heap_fed message (heap w) (heap w').
Proof.
  unfold broadcastToChat.
  assert (Hrefl : Ok w = Ok w' →
    connections w' = connections w ∧ pumps w' = pumps w ∧
    heap_fed message (heap w) (heap w')).
  { intros [= <-]. split; [done|]. split; [done|]. apply heap_fed_refl. }
  destruct database_DB as [query|]; [|done].
  destruct (query chatID) as [[user1ID user2ID]|]; [|done].
  destruct (sendToUser user1ID message w) as [w1| |] eqn:H1; [|done..]. simpl.
  intros H2. apply sendToUser_fed in H1 as (Hc1 & Hp1 & Hh1).
  apply sendToUser_fed in H2 as (Hc2 & Hp2 & Hh2).
  split; [congruence|]. split; [congruence|]. eapply heap_fed_trans; eauto.
Qed.

Lemma hub_broadcast_fed message w w' :
  hub_broadcast message w = Ok w' →
  connections w' = connections w ∧ pumps w' = pumps w ∧
  heap_fed message (heap w) (heap w').
Proof.
  unfold hub_broadcast.
  assert (Hrefl : Ok w = Ok w' →
    connections w' = connections w ∧ pumps w' = pumps w ∧
    heap_fed message (heap w) (heap w')).
  { intros [= <-]. split; [done|]. split; [done|]. apply heap_fed_refl. }
  destruct (json_Unmarshal message) as [wsMsg|]; [|done].
  destruct (decide (ChatID wsMsg = "")); [done|].
  apply broadcastToChat_fed.
Qed.

(** ** Resolution failure *)

Lemma broadcastToChat_unresolved chatID message w :
  resolver_fails database_DB chatID → broadcastToChat chatID message w = Ok w.
Proof.
  unfold resolver_fails, broadcastToChat. intros Hfail.
  destruct database_DB as [query|]; [|done].
  by rewrite (Hfail query eq_refl).
Qed.

Lemma BroadcastMessage_unresolved chatID payload w :
  resolver_fails database_DB chatID →
  keeps_chat_id (new_message chatID payload) →
  BroadcastMessage chatID payload w = Ok w.
Proof.
  intros Hfail Hkeep. unfold BroadcastMessage, hub_broadcast.
  destruct (json_Marshal (new_message chatID payload)) as [data|] eqn:Hm; [|done].
  destruct (json_Unmarshal data) as [wsMsg|] eqn:Hu; [|done].
  destruct (decide (ChatID wsMsg = "")); [done|].
  rewrite (Hkeep data wsMsg Hm Hu). simpl.
  by apply broadcastToChat_unresolved.
Qed.

(** C7: when the participant lookup fails for a chat, [broadcastToChat]
    returns with the state as it was (no connection receives the frame and
    nothing is kept for a retry), [BroadcastMessage] returns normally with
    the state unchanged, and the [SendMessage] call that stored the message
    answers 201 Created. *)
Theorem resolver_failure_drops_broadcast
    (call : SendMessageCall) (userID : string) (req : MessageRequest)
    (messageID : string) (w : World) :
  let chatID := call_chatID call in
  let payload := to_iface (stored_message call userID messageID req) in
  resolver_fails database_DB chatID →
  database_DB ≠ None →
  persisted call userID req messageID →
  keeps_chat_id (new_message chatID payload) →
  (∀ message, broadcastToChat chatID message w = Ok w) ∧
  BroadcastMessage chatID payload w = Ok w ∧
  SendMessage call w = Ok (201, w).
Proof.
  intros chatID payload Hfail Hdb (Hu & Hne & Hb & Ha & Hi) Hkeep.
  assert (Hbm : BroadcastMessage chatID payload w = Ok w)
    by (by apply BroadcastMessage_unresolved).
  split; [|split; [done|]].
  - intros. by apply broadcastToChat_unresolved.
  - unfold SendMessage. rewrite Hu, Hb, Ha, Hi.
    rewrite decide_False by done. fold chatID payload.
    destruct database_DB as [query|]; [|done].
    by rewrite Hbm.
Qed.

(** ** Fan-out *)

Lemma conns_of_lookup w userID conns :
  connections w !! userID = Some conns → conns_of w userID = conns.
Proof. unfold conns_of. by intros ->. Qed.

Lemma registered_under_wf w userID conn :
  registry_wf w → registered_under w userID conn →
  ∃ c, heap w !! conn = Some c ∧ UserID c = userID.
Proof.
  unfold registered_under, conns_of. intros Hwf Hin.
  destruct (connections w !! userID) as [conns|] eqn:Hl.
  - by apply (Hwf _ _ Hl).
  - by apply elem_of_nil in Hin.
Qed.

Lemma registry_wf_fed message w w' :
  registry_wf w → connections w' = connections w →
  heap_fed message (heap w) (heap w') → registry_wf w'.
Proof.
  intros Hwf Hc Hfed userID conns Hl. rewrite Hc in Hl.
  destruct (Hwf _ _ Hl) as (Hne & Hnd & Hin). split; [done|]. split; [done|].
  intros conn Hconn. destruct (Hin _ Hconn) as (c & Hheap & Huid).
  specialize (Hfed conn). rewrite Hheap in Hfed. inversion Hfed as [? c' Hcc|].
  exists c'. split; [done|]. destruct Hcc as (-> & _). done.
Qed.

Lemma deliver_all_exact message conns w :
  NoDup conns →
  (∀ conn, conn ∈ conns →
     ∃ c, heap w !! conn = Some c ∧ closed (Send c) = false) →
  ∃ w', deliver_all message w conns = Ok w' ∧
    connections w' = connections w ∧ pumps w' = pumps w ∧
    ∀ conn, heap w' !! conn =
      if decide (conn ∈ conns)
      then (λ c, with_Send c (offer message (Send c))) <$> heap w !! conn
      else heap w !! conn.
Proof.
  revert w. induction conns as [|p rest IH]; intros w Hnd Hopen.
  - exists w. split; [done|]. split; [done|]. split; [done|]. intros conn.
    case_decide as Hin; [by apply elem_of_nil in Hin|done].
  - apply NoDup_cons in Hnd as [Hp Hnd].
    destruct (Hopen p) as (c & Hc & Hcl); [left|].
    simpl. unfold deliver. rewrite Hc, (send_or_close_open _ _ Hcl). simpl.
    set (w1 := set_heap w _).
    destruct (IH w1 Hnd) as (w' & Hrun & Hconn & Hpumps & Hheap).
    { intros q Hq. destruct (Hopen q) as (cq & Hcq & Hclq); [by right|].
      exists cq. split; [|done]. simpl.
      rewrite lookup_insert_ne; [done|]. intros ->. done. }
    exists w'. split; [done|]. split; [done|]. split; [done|].
    intros conn. rewrite Hheap. simpl.
    destruct (decide (conn = p)) as [->|Hne].
    + rewrite lookup_insert_eq, Hc.
      rewrite (decide_False (P := p ∈ rest)) by done.
      rewrite (decide_True (P := p ∈ p :: rest)) by left. done.
    + rewrite lookup_insert_ne by done.
      destruct (decide (conn ∈ rest)) as [Hin|Hin].
      * rewrite (decide_True (P := conn ∈ p :: rest)) by (by right). done.
      * rewrite (decide_False (P := conn ∈ p :: rest)); [done|].
        intros [?|?]%elem_of_cons; done.
Qed.

Lemma sendToUser_exact userID message w :
  registry_wf w →
  (∀ conn c, registered_under w userID conn → heap w !! conn = Some c →
     closed (Send c) = false) →
  ∃ w', sendToUser userID message w = Ok w' ∧
    connections w' = connections w ∧ pumps w' = pumps w ∧
    ∀ conn, heap w' !! conn =
      if decide (conn ∈ conns_of w userID)
      then (λ c, with_Send c (offer message (Send c))) <$> heap w !! conn
      else heap w !! conn.
Proof.
  intros Hwf Hopen. unfold sendToUser.
  destruct (connections w !! userID) as [conns|] eqn:Hl.
  - rewrite (conns_of_lookup _ _ _ Hl).
    destruct (Hwf _ _ Hl) as (_ & Hnd & Hin).
    apply deliver_all_exact; [done|]. intros conn Hconn.
    destruct (Hin _ Hconn) as (c & Hc & _). exists c. split; [done|].
    apply (Hopen conn c); [|done].
    unfold registered_under. by rewrite (conns_of_lookup _ _ _ Hl).
  - exists w. split; [done|]. split; [done|]. split; [done|].
    intros conn. unfold conns_of. rewrite Hl.
    rewrite decide_False; [done|]. by intros ?%elem_of_nil.
Qed.

Lemma BroadcastMessage_resolved chatID payload data w :
  json_Marshal (new_message chatID payload) = Some data →
  chatID ≠ "" → keeps_chat_id (new_message chatID payload) →
  is_Some (json_Unmarshal data) →
  BroadcastMessage chatID payload w = broadcastToChat chatID data w.
Proof.
  intros Hm Hne Hkeep [wsMsg Hu]. unfold BroadcastMessage, hub_broadcast.
  rewrite Hm, Hu. rewrite (Hkeep data wsMsg Hm Hu). simpl.
  by destruct (decide (chatID = "")).
Qed.

(** C5: when the lookup gives the two users [A] and [B] of a chat and the
    queues of their registered connections are open, [broadcastToChat] puts
    the frame once at the end of the queue of every connection registered
    under [A] or [B] that has room, closes those that are full, and leaves
    every other connection as it was; [BroadcastMessage] does the same with
    the encoded [new_message] envelope. *)
Theorem broadcast_reaches_exactly_participants (chatID A B : string) (w : World) :
  resolves_to database_DB chatID A B → A ≠ B → registry_wf w →
  (∀ conn c, registered_under w A conn ∨ registered_under w B conn →
     heap w !! conn = Some c → closed (Send c) = false) →
  (∀ message, ∃ w',
     broadcastToChat chatID message w = Ok w' ∧
     connections w' = connections w ∧
     ∀ conn c, heap w !! conn = Some c →
       ∃ c', heap w' !! conn = Some c' ∧
         (registered_under w A conn ∨ registered_under w B conn →
            has_room (Send c) →
            c' = with_Send c (chan_push message (Send c))) ∧
         (registered_under w A conn ∨ registered_under w B conn →
            is_full (Send c) →
            c' = with_Send c (chan_mark_closed (Send c))) ∧
         (¬ (registered_under w A conn ∨ registered_under w B conn) →
            c' = c)) ∧
  (∀ payload data,
     json_Marshal (new_message chatID payload) = Some data →
     chatID ≠ "" → keeps_chat_id (new_message chatID payload) →
     is_Some (json_Unmarshal data) →
     BroadcastMessage chatID payload w = broadcastToChat chatID data w).
Proof.
  intros (query & Hdb & Hq) HAB Hwf Hopen.
  split; [|intros; by apply BroadcastMessage_resolved].
  intros message. unfold broadcastToChat. rewrite Hdb, Hq.
  destruct (sendToUser_exact A message w Hwf) as (w1 & H1 & Hc1 & Hp1 & Hh1).
  { intros conn c Hr. apply Hopen. by left. }
  rewrite H1. simpl.
  assert (Hwf1 : registry_wf w1).
  { eapply registry_wf_fed; [done..|].
    by apply (sendToUser_fed _ _ _ _ H1). }
  assert (HconnsB : conns_of w1 B = conns_of w B)
    by (unfold conns_of; by rewrite Hc1).
  assert (Hdisj : ∀ conn, conn ∈ conns_of w A → conn ∈ conns_of w B → False).
  { intros conn HA HB.
    destruct (registered_under_wf _ _ _ Hwf HA) as (c & Hc & Hu).
    destruct (registered_under_wf _ _ _ Hwf HB) as (c' & Hc' & Hu').
    congruence. }
  destruct (sendToUser_exact B message w1 Hwf1) as (w2 & H2 & Hc2 & Hp2 & Hh2).
  { intros conn c Hr Hheap. unfold registered_under in Hr.
    rewrite HconnsB in Hr. rewrite Hh1 in Hheap.
    rewrite decide_False in Hheap by (intros HA; by eapply Hdisj).
    apply (Hopen conn c); [by right|done]. }
  exists w2. split; [done|]. split; [congruence|].
  intros conn c Hc. rewrite Hh2, HconnsB, Hh1, Hc.
  unfold registered_under.
  destruct (decide (conn ∈ conns_of w A)) as [HA|HA];
    destruct (decide (conn ∈ conns_of w B)) as [HB|HB]; simpl.
  - by destruct (Hdisj conn).
  - eexists. split; [done|]. split; [|split].
    + intros _ Hroom. by rewrite offer_room.
    + intros _ Hfull. by rewrite offer_full.
    + intros Hn. destruct Hn. by left.
  - eexists. split; [done|]. split; [|split].
    + intros _ Hroom. by rewrite offer_room.
    + intros _ Hfull. by rewrite offer_full.
    + intros Hn. destruct Hn. by right.
  - exists c. split; [done|]. split; [|split]; [intros [?|?]; done..|done].
Qed.

(** ** The effect of a step on one connection *)

Lemma effect_same w w' conn :
  heap w' = heap w → pumps w' = pumps w → effect w w' conn.
Proof.
  intros Hh Hp. destruct (heap w !! conn) as [c|] eqn:Hc.
  - apply (eff_kept _ _ _ c c []); rewrite ?Hh, ?app_nil_r; try done.
    unfold writer_running. by rewrite Hp.
  - apply eff_absent; by rewrite ?Hh.
Qed.

Lemma effect_update w w' p c c' fs :
  heap w !! p = Some c → heap w' = <[p := c']> (heap w) →
  (∀ q, writer_running w' q → writer_running w q) →
  UserID c' = UserID c →
  sock_written (Conn c') = sock_written (Conn c) →
  buf (Send c') = buf (Send c) ++ fs →
  sent (Send c') = sent (Send c) ++ fs →
  Forall known_frame fs →
  ∀ conn, effect w w' conn.
Proof.
  intros Hc Hh Hw Hu Hs Hb Hl Hk conn.
  destruct (decide (conn = p)) as [->|Hne].
  - apply (eff_kept _ _ _ c c' fs); try done; [by rewrite Hh, lookup_insert_eq|auto].
  - destruct (heap w !! conn) as [d|] eqn:Hd.
    + apply (eff_kept _ _ _ d d []); rewrite ?app_nil_r; try done; [|auto].
      by rewrite Hh, lookup_insert_ne.
    + apply eff_absent; [done|]. by rewrite Hh, lookup_insert_ne.
Qed.

Lemma effect_fed message w w' :
  known_frame message → pumps w' = pumps w →
  heap_fed message (heap w) (heap w') → ∀ conn, effect w w' conn.
Proof.
  intros Hk Hp Hfed conn. specialize (Hfed conn).
  inversion Hfed as [c c' (Hu & Hs & _ & n & Hb & Hl) Hc Hc'|Hc Hc'].
  - apply (eff_kept _ _ _ c c' (replicate n message)); try done.
    + by rewrite Hs.
    + by apply Forall_replicate.
    + unfold writer_running. by rewrite Hp.
  - by apply eff_absent.
Qed.

Lemma writer_running_set_reader conn r w q :
  writer_running (set_reader conn r w) q → writer_running w q.
Proof.
  unfold set_reader, writer_running.
  destruct (pumps w !! conn) as [g|] eqn:Hg; [|done]. simpl.
  destruct (decide (q = conn)) as [->|Hne].
  - rewrite lookup_insert_eq. intros (g' & [= <-] & Hw). by exists g.
  - by rewrite lookup_insert_ne.
Qed.

Lemma writer_running_set_writer_false conn w q :
  writer_running (set_writer conn false w) q → writer_running w q ∧ q ≠ conn.
Proof.
  unfold set_writer, writer_running. intros (g' & Hg' & Hw).
  destruct (pumps w !! conn) as [g|] eqn:Hg.
  - simpl in Hg'. destruct (decide (q = conn)) as [->|Hne].
    + rewrite lookup_insert_eq in Hg'. by injection Hg' as <-.
    + rewrite lookup_insert_ne in Hg' by done. split; [by exists g'|done].
  - split; [by exists g'|]. intros ->. congruence.
Qed.

Lemma known_new_message chatID payload data :
  json_Marshal (new_message chatID payload) = Some data → known_frame data.
Proof.
  intros Hm. exists (new_message chatID payload). split; [done|].
  unfold outbound_types. simpl. set_solver.
Qed.

Lemma readPump_handle_ToHub c message data :
  readPump_handle c message = ToHub data →
  ∃ wsMsg, json_Unmarshal message = Some wsMsg ∧ Type_ wsMsg = "typing" ∧
           json_Marshal (stamp wsMsg (UserID c)) = Some data.
Proof.
  unfold readPump_handle.
  destruct (json_Unmarshal message) as [wsMsg|]; [|done].
  destruct (decide (Type_ wsMsg = "typing")) as [Ht|Ht].
  - destruct (json_Marshal (stamp wsMsg (UserID c))) eqn:Hm; [|done].
    intros [= <-]. by exists wsMsg.
  - destruct (decide (Type_ wsMsg = "ping")); [|done].
    by destruct (json_Marshal pong).
Qed.

Lemma readPump_handle_ToSelf c message data :
  readPump_handle c message = ToSelf data → json_Marshal pong = Some data.
Proof.
  unfold readPump_handle.
  destruct (json_Unmarshal message) as [wsMsg|]; [|done].
  destruct (decide (Type_ wsMsg = "typing")) as [Ht|Ht].
  - by destruct (json_Marshal (stamp wsMsg (UserID c))).
  - destruct (decide (Type_ wsMsg = "ping")); [|done].
    destruct (json_Marshal pong); [|done]. by intros [= <-].
Qed.

Lemma known_typing c message data :
  readPump_handle c message = ToHub data → known_frame data.
Proof.
  intros (wsMsg & _ & Ht & Hm)%readPump_handle_ToHub.
  exists (stamp wsMsg (UserID c)). split; [done|].
  unfold outbound_types. simpl. rewrite Ht. set_solver.
Qed.

Lemma known_pong c message data :
  readPump_handle c message = ToSelf data → known_frame data.
Proof.
  intros Hm%readPump_handle_ToSelf. exists pong. split; [done|].
  unfold outbound_types. simpl. set_solver.
Qed.

Lemma effect_users w w' :
  (∀ q, effect w w' q) →
  ∀ q c, heap w !! q = Some c →
    ∃ c', heap w' !! q = Some c' ∧ UserID c' = UserID c.
Proof.
  intros Heff q c Hc.
  destruct (Heff q) as [Hn _|d d' fs Hd Hd' Hu|u Hn _|d d' m rest Hd Hd' _ _ Hu];
    try congruence.
  - exists d'. split; congruence.
  - exists d'. split; congruence.
Qed.

(** A step that only removes entries from the map, and keeps the user of
    every connection, keeps the registry well formed. *)
Lemma registry_wf_sub w w' :
  registry_wf w →
  (∀ userID conns', connections w' !! userID = Some conns' →
     conns' ≠ [] ∧
     ∃ conns, connections w !! userID = Some conns ∧ conns' `sublist_of` conns) →
  (∀ q, effect w w' q) →
  registry_wf w'.
Proof.
  intros Hwf Hsub Heff userID conns' Hl'.
  destruct (Hsub _ _ Hl') as (Hne & conns & Hl & Hsl).
  destruct (Hwf _ _ Hl) as (_ & Hnd & Hin).
  split; [done|]. split; [by eapply sublist_NoDup|].
  intros conn Hconn.
  destruct (Hin conn) as (c & Hc & Hu); [by eapply elem_of_sublist|].
  destruct (effect_users _ _ Heff _ _ Hc) as (c' & Hc' & Hu').
  exists c'. split; [done|congruence].
Qed.

Lemma registry_wf_same w w' :
  registry_wf w → connections w' = connections w →
  (∀ q, effect w w' q) → registry_wf w'.
Proof.
  intros Hwf Hc Heff. apply (registry_wf_sub w); [done| |done].
  intros userID conns' Hl'. rewrite Hc in Hl'.
  split; [by apply (Hwf _ _ Hl')|]. by exists conns'.
Qed.

Lemma index_of_Some conn conns i :
  index_of conn conns = Some i → conns !! i = Some conn.
Proof.
  unfold index_of. intros ([j x] & Hf & ->)%fmap_Some. simpl.
  by apply list_find_Some in Hf as (Hl & -> & _).
Qed.

Lemma index_of_None conn conns :
  index_of conn conns = None → conn ∉ conns.
Proof.
  unfold index_of. intros Hf%fmap_None.
  apply list_find_None in Hf. rewrite Forall_forall in Hf.
  intros Hin. by apply (Hf conn).
Qed.

Lemma hub_unregister_spec conn w w' :
  hub_unregister conn w = Ok w' →
  pumps w' = pumps w ∧ (∀ q, effect w w' q) ∧
  (registry_wf w → registry_wf w').
Proof.
  unfold hub_unregister.
  destruct (heap w !! conn) as [c|] eqn:Hc; [|done].
  destruct (connections w !! UserID c) as [conns|] eqn:Hl.
  2:{ intros [= <-]. split; [done|]. split; [|done].
      intros q. by apply effect_same. }
  destruct (index_of conn conns) as [i|] eqn:Hi.
  - unfold chan_close. destruct (closed (Send c)) eqn:Hcl; [done|]. simpl.
    unfold conns_of. simpl. rewrite lookup_insert_eq. simpl.
    rewrite <- delete_take_drop.
    set (c' := with_Send c (chan_mark_closed (Send c))).
    assert (Heff : ∀ w'', heap w'' = <[conn := c']> (heap w) →
                          pumps w'' = pumps w → ∀ q, effect w w'' q).
    { intros w'' Hh Hp. apply (effect_update w w'' conn c c' []);
        rewrite ?app_nil_r; try done.
      unfold writer_running. by rewrite Hp. }
    destruct (decide (length (delete i conns) = 0)) as [Hlen|Hlen];
      intros [= <-]; simpl.
    + split; [done|]. split; [by apply Heff|].
      intros Hwf. eapply registry_wf_sub; [done| |by apply Heff].
      intros userID conns' Hl'. simpl in Hl'.
      destruct (decide (userID = UserID c)) as [->|Hne].
      * by rewrite lookup_delete_eq in Hl'.
      * rewrite lookup_delete_ne, lookup_insert_ne in Hl' by done.
        split; [by apply (Hwf _ _ Hl')|]. by exists conns'.
    + split; [done|]. split; [by apply Heff|].
      intros Hwf. eapply registry_wf_sub; [done| |by apply Heff].
      intros userID conns' Hl'. simpl in Hl'.
      destruct (decide (userID = UserID c)) as [->|Hne].
      * rewrite lookup_insert_eq in Hl'. injection Hl' as <-.
        split; [by intros Hnil; rewrite Hnil in Hlen|].
        exists conns. split; [done|]. apply sublist_delete.
      * rewrite lookup_insert_ne in Hl' by done.
        split; [by apply (Hwf _ _ Hl')|]. by exists conns'.
  - simpl. unfold conns_of. rewrite Hl. simpl.
    destruct (decide (length conns = 0)) as [Hlen|Hlen]; intros [= <-].
    + split; [done|]. split; [intros q; by apply effect_same|].
      intros Hwf. eapply registry_wf_sub; [done| |intros q; by apply effect_same].
      intros userID conns' Hl'. simpl in Hl'.
      destruct (decide (userID = UserID c)) as [->|Hne].
      * by rewrite lookup_delete_eq in Hl'.
      * rewrite lookup_delete_ne in Hl' by done.
        split; [by apply (Hwf _ _ Hl')|]. by exists conns'.
    + split; [done|]. split; [|done]. intros q. by apply effect_same.
Qed.

Lemma HandleWebSocket_spec userID w :
  let conn := fresh (dom (heap w)) in
  heap w !! conn = None ∧
  HandleWebSocket userID w =
    Ok (mkWorld (<[userID := conns_of w userID ++ [conn]]> (connections w))
                (<[conn := new_connection userID]> (heap w))
                (<[conn := mkPumps RRunning true]> (pumps w))).
Proof.
  intros conn. split.
  - apply not_elem_of_dom. apply is_fresh.
  - unfold HandleWebSocket, hub_register. fold conn. simpl.
    by rewrite lookup_insert_eq.
Qed.

Lemma HandleWebSocket_effect userID w w' :
  HandleWebSocket userID w = Ok w' → ∀ q, effect w w' q.
Proof.
  destruct (HandleWebSocket_spec userID w) as [Hfresh ->].
  intros [= <-] q. destruct (decide (q = fresh (dom (heap w)))) as [->|Hne].
  - apply (eff_fresh _ _ _ userID); [done|]. simpl. by rewrite lookup_insert_eq.
  - destruct (heap w !! q) as [c|] eqn:Hc.
    + apply (eff_kept _ _ _ c c []); rewrite ?app_nil_r; try done.
      * simpl. by rewrite lookup_insert_ne.
      * unfold writer_running. simpl. by rewrite lookup_insert_ne.
    + apply eff_absent; [done|]. simpl. by rewrite lookup_insert_ne.
Qed.

Lemma HandleWebSocket_wf userID w w' :
  HandleWebSocket userID w = Ok w' → registry_wf w → registry_wf w'.
Proof.
  destruct (HandleWebSocket_spec userID w) as [Hfresh ->].
  intros [= <-] Hwf k conns' Hl'. simpl in *.
  set (conn := fresh (dom (heap w))) in *.
  assert (Hold : ∀ u conns q, connections w !! u = Some conns → q ∈ conns →
            q ≠ conn ∧ ∃ c, <[conn := new_connection userID]> (heap w) !! q = Some c
                            ∧ UserID c = u).
  { intros u conns q Hl Hq. destruct (Hwf _ _ Hl) as (_ & _ & Hin).
    destruct (Hin _ Hq) as (c & Hc & Hu).
    assert (q ≠ conn) by (intros ->; congruence).
    split; [done|]. exists c. by rewrite lookup_insert_ne. }
  destruct (decide (k = userID)) as [->|Hne].
  - rewrite lookup_insert_eq in Hl'. injection Hl' as <-.
    split; [by destruct (conns_of w userID)|].
    unfold conns_of. destruct (connections w !! userID) as [conns|] eqn:Hl; simpl.
    + destruct (Hwf _ _ Hl) as (_ & Hnd & _). split.
      * apply NoDup_app. split; [done|]. split; [|apply NoDup_singleton].
        intros q Hq ->%list_elem_of_singleton.
        by destruct (Hold _ _ _ Hl Hq).
      * intros q [Hq| ->%list_elem_of_singleton]%elem_of_app.
        -- by apply (Hold _ _ _ Hl Hq).
        -- exists (new_connection userID). by rewrite lookup_insert_eq.
    + split; [apply NoDup_singleton|].
      intros q ->%list_elem_of_singleton.
      exists (new_connection userID). by rewrite lookup_insert_eq.
  - rewrite lookup_insert_ne in Hl' by done.
    destruct (Hwf _ _ Hl') as (Hnil & Hnd & _).
    split; [done|]. split; [done|]. intros q Hq. by apply (Hold _ _ _ Hl' Hq).
Qed.

Lemma heap_set_reader conn r w : heap (set_reader conn r w) = heap w.
Proof. unfold set_reader. by destruct (pumps w !! conn). Qed.

Lemma connections_set_reader conn r w :
  connections (set_reader conn r w) = connections w.
Proof. unfold set_reader. by destruct (pumps w !! conn). Qed.

Lemma heap_set_writer conn b w : heap (set_writer conn b w) = heap w.
Proof. unfold set_writer. by destruct (pumps w !! conn). Qed.

Lemma connections_set_writer conn b w :
  connections (set_writer conn b w) = connections w.
Proof. unfold set_writer. by destruct (pumps w !! conn). Qed.

(** Afterwards some pump stops: the effect stays what it was. *)
Lemma effect_pumps w w1 w2 :
  heap w2 = heap w1 →
  (∀ q, writer_running w2 q → writer_running w1 q) →
  (∀ q, effect w w1 q) → ∀ q, effect w w2 q.
Proof.
  intros Hh Hw Heff q.
  destruct (Heff q) as [Hn Hn'|c c' fs Hc Hc' Hu Hs Hb Hl Hk Hr|u Hn Hf
                        |c c' m rest Hc Hc' Hr Hb Hu Hl Hb' Hwr].
  - apply eff_absent; by rewrite ?Hh.
  - apply (eff_kept _ _ _ c c' fs); rewrite ?Hh; auto.
  - apply (eff_fresh _ _ _ u); by rewrite ?Hh.
  - apply (eff_wrote _ _ _ c c' m rest); rewrite ?Hh; try done.
    destruct Hwr as [?|[? Hnot]]; [by left|right]. split; [done|]. auto.
Qed.

(** A step that touches one address only. *)
Lemma effect_at w w' p :
  (∀ q, q ≠ p → heap w' !! q = heap w !! q) →
  (∀ q, writer_running w' q → writer_running w q) →
  effect w w' p → ∀ q, effect w w' q.
Proof.
  intros Hh Hw Hp q. destruct (decide (q = p)) as [->|Hne]; [done|].
  destruct (heap w !! q) as [c|] eqn:Hc.
  - apply (eff_kept _ _ _ c c []); rewrite ?app_nil_r; try done; [|auto].
    by rewrite Hh.
  - apply eff_absent; [done|]. by rewrite Hh.
Qed.

Lemma readPump_frame_spec conn message w w' :
  readPump_frame conn message w = Ok w' →
  connections w' = connections w ∧ ∀ q, effect w w' q.
Proof.
  unfold readPump_frame.
  destruct (pumps w !! conn) as [[[] wr]|]; try done;
    destruct (heap w !! conn) as [c|] eqn:Hc; try done.
  destruct (sock_closed (Conn c)); [done|].
  destruct (readPump_handle c message) as [|data|data] eqn:Hh.
  - intros [= <-]. split; [done|]. intros q. by apply effect_same.
  - intros (Hconn & Hp & Hfed)%hub_broadcast_fed. split; [done|].
    eapply effect_fed; [|done..]. by eapply known_typing.
  - unfold chan_send. destruct (closed (Send c)); [done|].
    destruct (length (buf (Send c)) <? cap (Send c)); [|done]. simpl.
    intros [= <-]. split; [done|].
    apply (effect_update _ _ conn c
             (with_Send c (chan_push data (Send c))) [data]); try done.
    constructor; [|done]. by eapply known_pong.
Qed.

Lemma readPump_exit_spec conn w w' :
  readPump_exit conn w = Ok w' →
  (∀ q, effect w w' q) ∧ (registry_wf w → registry_wf w').
Proof.
  unfold readPump_exit.
  destruct (pumps w !! conn) as [[[] wr]|]; try done.
  destruct (hub_unregister conn w) as [w1| |] eqn:Hu; [|done..]. simpl.
  intros [= <-]. apply hub_unregister_spec in Hu as (Hp & Heff & Hwf).
  assert (Heff' : ∀ q, effect w (set_reader conn RExiting w1) q).
  { apply (effect_pumps w w1); [apply heap_set_reader| |done].
    apply writer_running_set_reader. }
  split; [done|]. intros Hw. specialize (Hwf Hw).
  apply (registry_wf_same w1).
  - done.
  - apply connections_set_reader.
  - apply (effect_pumps w1 w1); [apply heap_set_reader| |].
    + apply writer_running_set_reader.
    + intros q. by apply effect_same.
Qed.

Lemma readPump_close_spec conn w w' :
  readPump_close conn w = Ok w' →
  connections w' = connections w ∧ ∀ q, effect w w' q.
Proof.
  unfold readPump_close.
  destruct (pumps w !! conn) as [[[] wr]|]; try done;
    destruct (heap w !! conn) as [c|] eqn:Hc; try done.
  intros [= <-]. split; [by rewrite connections_set_reader|].
  apply (effect_update _ _ conn c (with_Conn c (socket_close (Conn c))) []);
    rewrite ?app_nil_r; try done.
  - by rewrite heap_set_reader.
  - intros q Hq%writer_running_set_reader. done.
Qed.

Lemma writePump_frame_spec conn ok w w' :
  writePump_frame conn ok w = Ok w' →
  connections w' = connections w ∧ ∀ q, effect w w' q.
Proof.
  unfold writePump_frame.
  destruct (pumps w !! conn) as [[rd []]|] eqn:Hg; try done;
    destruct (heap w !! conn) as [c|] eqn:Hc; try done.
  destruct (buf (Send c)) as [|message rest] eqn:Hb; [done|].
  assert (Hrun : writer_running w conn) by (by exists (mkPumps rd true)).
  unfold WriteMessage. simpl.
  destruct (sock_closed (Conn c)) eqn:Hsc; [|destruct ok]; intros [= <-].
  - split; [by rewrite connections_set_writer|].
    apply (effect_at _ _ conn).
    + intros q Hne. rewrite heap_set_writer. simpl. by rewrite lookup_insert_ne.
    + intros q [Hq _]%writer_running_set_writer_false. done.
    + eapply (eff_wrote _ _ _ c _ message rest);
        [done|rewrite heap_set_writer; simpl; by rewrite lookup_insert_eq
        |done|done|done|done|simpl; by rewrite Hb|].
      right. split; [done|].
      intros [_ Hne]%writer_running_set_writer_false. done.
  - split; [done|]. apply (effect_at _ _ conn).
    + intros q Hne. simpl. by rewrite lookup_insert_ne.
    + done.
    + eapply (eff_wrote _ _ _ c _ message rest);
        [done|simpl; by rewrite lookup_insert_eq
        |done|done|done|done|simpl; by rewrite Hb|].
      by left.
  - split; [by rewrite connections_set_writer|].
    apply (effect_at _ _ conn).
    + intros q Hne. rewrite heap_set_writer. simpl. by rewrite lookup_insert_ne.
    + intros q [Hq _]%writer_running_set_writer_false. done.
    + eapply (eff_wrote _ _ _ c _ message rest);
        [done|rewrite heap_set_writer; simpl; by rewrite lookup_insert_eq
        |done|done|done|done|simpl; by rewrite Hb|].
      right. split; [done|].
      intros [_ Hne]%writer_running_set_writer_false. done.
Qed.

Lemma writePump_end_spec conn w w' :
  writePump_end conn w = Ok w' →
  connections w' = connections w ∧ ∀ q, effect w w' q.
Proof.
  unfold writePump_end.
  destruct (pumps w !! conn) as [[rd []]|] eqn:Hg; try done;
    destruct (heap w !! conn) as [c|] eqn:Hc; try done.
  destruct (buf (Send c)) eqn:Hb; [|done].
  destruct (closed (Send c)); [|done].
  intros [= <-]. split; [by rewrite connections_set_writer|].
  apply (effect_update _ _ conn c (with_Conn c (socket_close (Conn c))) []);
    rewrite ?app_nil_r; try done.
  - by rewrite heap_set_writer.
  - intros q [Hq _]%writer_running_set_writer_false. done.
Qed.

Lemma BroadcastMessage_spec chatID payload w w' :
  BroadcastMessage chatID payload w = Ok w' →
  connections w' = connections w ∧ ∀ q, effect w w' q.
Proof.
  unfold BroadcastMessage.
  destruct (json_Marshal (new_message chatID payload)) as [data|] eqn:Hm.
  - intros (Hconn & Hp & Hfed)%hub_broadcast_fed. split; [done|].
    eapply effect_fed; [|done..]. by eapply known_new_message.
  - intros [= <-]. split; [done|]. intros q. by apply effect_same.
Qed.

(** Every step has one of the four effects on every connection, and keeps
    the registry well formed. *)
Lemma step_effect w ev w' :
  step w ev = Ok w' → ∀ q, effect w w' q.
Proof.
  destruct ev; simpl.
  - apply HandleWebSocket_effect.
  - by intros [_ ?]%BroadcastMessage_spec.
  - by intros [_ ?]%readPump_frame_spec.
  - by intros [? _]%readPump_exit_spec.
  - by intros [_ ?]%readPump_close_spec.
  - by intros [_ ?]%writePump_frame_spec.
  - by intros [_ ?]%writePump_end_spec.
Qed.

Lemma step_registry_wf w ev w' :
  step w ev = Ok w' → registry_wf w → registry_wf w'.
Proof.
  intros Hstep Hwf. pose proof (step_effect _ _ _ Hstep) as Heff.
  destruct ev; simpl in Hstep.
  - by eapply HandleWebSocket_wf.
  - apply BroadcastMessage_spec in Hstep as [? _]. by eapply registry_wf_same.
  - apply readPump_frame_spec in Hstep as [? _]. by eapply registry_wf_same.
  - apply readPump_exit_spec in Hstep as [_ ?]. auto.
  - apply readPump_close_spec in Hstep as [? _]. by eapply registry_wf_same.
  - apply writePump_frame_spec in Hstep as [? _]. by eapply registry_wf_same.
  - apply writePump_end_spec in Hstep as [? _]. by eapply registry_wf_same.
Qed.

(** ** Invariants of the reachable states *)

Lemma run_invariant (P : World → Prop) :
  (∀ w ev w', P w → step w ev = Ok w' → P w') →
  ∀ evs w w', P w → run w evs = Ok w' → P w'.
Proof.
  intros Hstep evs. induction evs as [|ev rest IH]; intros w w' HP; simpl.
  - by intros [= <-].
  - destruct (step w ev) as [w1| |] eqn:Hs; [|done..]. simpl.
    apply IH. by eapply Hstep.
Qed.

Lemma reachable_invariant (P : World → Prop) :
  P init → (∀ w ev w', P w → step w ev = Ok w' → P w') →
  ∀ w, reachable w → P w.
Proof.
  intros Hinit Hstep w [evs Hrun]. by eapply run_invariant.
Qed.

Lemma reachable_registry_wf w : reachable w → registry_wf w.
Proof.
  apply reachable_invariant.
  - intros userID conns Hl. simpl in Hl. by rewrite lookup_empty in Hl.
  - intros ? ? ? ? ?. by eapply step_registry_wf.
Qed.

Lemma step_fifo_inv w ev w' :
  step w ev = Ok w' → fifo_inv w → fifo_inv w'.
Proof.
  intros Hstep Hinv conn c' Hc'.
  destruct (step_effect _ _ _ Hstep conn)
    as [_ Hn|c d fs Hc Hd Hu Hs Hb Hl Hk Hr|u _ Hf
       |c d m rest Hc Hd Hr Hb Hu Hl Hb' Hwr].
  - congruence.
  - assert (d = c') as -> by congruence.
    destruct (Hinv _ _ Hc) as (lost & Hsent & Hlost).
    exists lost. split; [|auto].
    rewrite Hl, Hs, Hb, Hsent. by rewrite <- !app_assoc.
  - assert (c' = new_connection u) as -> by congruence. by exists [].
  - assert (d = c') as -> by congruence.
    destruct (Hinv _ _ Hc) as (lost & Hsent & Hlost).
    rewrite (Hlost Hr), Hb in Hsent. simpl in Hsent.
    destruct Hwr as [Hw|[Hw Hstop]].
    + exists []. split; [|done]. rewrite Hl, Hw, Hb', Hsent. simpl.
      by rewrite <- app_assoc.
    + exists [m]. split; [|done]. by rewrite Hl, Hw, Hb', Hsent.
Qed.

Lemma reachable_fifo_inv w : reachable w → fifo_inv w.
Proof.
  apply reachable_invariant.
  - intros conn c Hc. simpl in Hc. by rewrite lookup_empty in Hc.
  - intros ? ? ? ? ?. by eapply step_fifo_inv.
Qed.

Lemma step_known_inv w ev w' :
  step w ev = Ok w' → known_inv w → known_inv w'.
Proof.
  intros Hstep Hinv conn c' data Hc' Hin.
  destruct (step_effect _ _ _ Hstep conn)
    as [_ Hn|c d fs Hc Hd Hu Hs Hb Hl Hk Hr|u _ Hf
       |c d m rest Hc Hd Hr Hb Hu Hl Hb' Hwr].
  - congruence.
  - assert (d = c') as -> by congruence.
    rewrite Hl in Hin. apply elem_of_app in Hin as [Hin|Hin].
    + by apply (Hinv _ _ _ Hc).
    + rewrite Forall_forall in Hk. by apply Hk.
  - assert (c' = new_connection u) as -> by congruence.
    by apply elem_of_nil in Hin.
  - assert (d = c') as -> by congruence.
    rewrite Hl in Hin. by apply (Hinv _ _ _ Hc).
Qed.

Lemma reachable_known_inv w : reachable w → known_inv w.
Proof.
  apply reachable_invariant.
  - intros conn c data Hc. simpl in Hc. by rewrite lookup_empty in Hc.
  - intros ? ? ? ? ?. by eapply step_known_inv.
Qed.

(** The user of a connection never changes. *)
Lemma run_users evs w w' :
  run w evs = Ok w' →
  ∀ q c, heap w !! q = Some c →
    ∃ c', heap w' !! q = Some c' ∧ UserID c' = UserID c.
Proof.
  revert w. induction evs as [|ev rest IH]; intros w; simpl.
  - intros [= <-] q c Hc. by exists c.
  - destruct (step w ev) as [w1| |] eqn:Hs; [|done..]. simpl.
    intros Hrun q c Hc.
    destruct (effect_users _ _ (step_effect _ _ _ Hs) _ _ Hc) as (c1 & Hc1 & Hu1).
    destruct (IH _ Hrun _ _ Hc1) as (c' & Hc' & Hu').
    exists c'. split; [done|congruence].
Qed.

Lemma reachable_run evs w w' :
  reachable w → run w evs = Ok w' → reachable w'.
Proof.
  intros [evs0 Hrun0] Hrun. exists (evs0 ++ evs).
  revert Hrun0. generalize init. induction evs0 as [|ev rest IH]; intros w0; simpl.
  - by intros [= ->].
  - destruct (step w0 ev) as [w1| |]; [|done..]. simpl. apply IH.
Qed.

(** ** The registry and the sockets *)

Lemma filter_absent conns (conn : ptr) :
  conn ∉ conns → filter (λ c, c = conn) conns = [].
Proof.
  induction conns as [|x l IH]; [done|]. intros Hn. rewrite filter_cons.
  destruct (decide (x = conn)) as [->|Hne].
  - destruct Hn. left.
  - apply IH. intros Hin. apply Hn. by right.
Qed.

Lemma entries_one conns (conn : ptr) :
  NoDup conns → conn ∈ conns → length (filter (λ c, c = conn) conns) = 1.
Proof.
  induction 1 as [|x l Hx Hnd IH]; intros Hin.
  - by apply elem_of_nil in Hin.
  - rewrite filter_cons. destruct (decide (x = conn)) as [->|Hne].
    + simpl. by rewrite filter_absent.
    + apply elem_of_cons in Hin as [->|Hin]; [done|]. by apply IH.
Qed.

(** C4, as the code has it: in every reachable state, a connection in the
    registry is filed once, under the user id it was created with, and
    under no other user id, and it stays under that user id in every later
    state in which it is registered.  (A registered connection whose socket
    was closed by its writer stays in the registry until its reader has
    handed it to [hub.unregister].) *)
Theorem registered_under_own_user_only (w : World) (userID : string) (conn : ptr) :
  reachable w → registered_under w userID conn →
  (∃ c, heap w !! conn = Some c ∧ UserID c = userID) ∧
  entries w userID conn = 1 ∧
  (∀ userID', registered_under w userID' conn → userID' = userID) ∧
  (∀ evs w' userID', run w evs = Ok w' →
     registered_under w' userID' conn → userID' = userID).
Proof.
  intros Hreach Hreg. pose proof (reachable_registry_wf _ Hreach) as Hwf.
  destruct (registered_under_wf _ _ _ Hwf Hreg) as (c & Hc & Hu).
  split; [by exists c|]. split; [|split].
  - unfold registered_under, entries, conns_of in *.
    destruct (connections w !! userID) as [conns|] eqn:Hl;
      [|by apply elem_of_nil in Hreg].
    apply entries_one; [|done]. by apply (Hwf _ _ Hl).
  - intros userID' Hreg'.
    destruct (registered_under_wf _ _ _ Hwf Hreg') as (c' & Hc' & Hu').
    congruence.
  - intros evs w' userID' Hrun Hreg'.
    pose proof (reachable_registry_wf _ (reachable_run _ _ _ Hreach Hrun)) as Hwf'.
    destruct (registered_under_wf _ _ _ Hwf' Hreg') as (c' & Hc' & Hu').
    destruct (run_users _ _ _ Hrun _ _ Hc) as (c'' & Hc'' & Hu'').
    congruence.
Qed.

(** ** Order of delivery *)

Lemma broadcastToChat_twice chatID f1 f2 w w1 w2 :
  broadcastToChat chatID f1 w = Ok w1 →
  broadcastToChat chatID f2 w1 = Ok w2 →
  ∀ conn c, heap w !! conn = Some c →
    ∃ c2 n1 n2, heap w2 !! conn = Some c2 ∧
      sent (Send c2) = sent (Send c) ++ replicate n1 f1 ++ replicate n2 f2.
Proof.
  intros (_ & _ & H1)%broadcastToChat_fed (_ & _ & H2)%broadcastToChat_fed.
  intros conn c Hc. specialize (H1 conn). specialize (H2 conn).
  rewrite Hc in H1. inversion H1 as [? c1 (_ & _ & _ & n1 & _ & Hl1) E1 Hc1|].
  rewrite <- Hc1 in H2.
  inversion H2 as [? c2 (_ & _ & _ & n2 & _ & Hl2) E2 Hc2|].
  exists c2, n1, n2. split; [done|]. by rewrite Hl2, Hl1, <- app_assoc.
Qed.

(** C9: in every reachable state, the frames a connection's writer wrote to
    its socket are a prefix of the frames its queue accepted, in the order
    the queue accepted them, and while the writer is in its loop the frames
    accepted are exactly those written followed by those still queued; two
    [broadcastToChat] calls for one chat leave every copy of the first frame
    ahead of every copy of the second in each queue. *)
Theorem writePump_writes_in_enqueue_order (w : World) :
  reachable w →
  (∀ conn c, heap w !! conn = Some c →
     sock_written (Conn c) `prefix_of` sent (Send c) ∧
     buf (Send c) `suffix_of` sent (Send c) ∧
     (writer_running w conn →
        sent (Send c) = sock_written (Conn c) ++ buf (Send c))) ∧
  (∀ chatID f1 f2 w1 w2,
     broadcastToChat chatID f1 w = Ok w1 →
     broadcastToChat chatID f2 w1 = Ok w2 →
     ∀ conn c, heap w !! conn = Some c →
       ∃ c2 n1 n2, heap w2 !! conn = Some c2 ∧
         sent (Send c2) =
           sent (Send c) ++ replicate n1 f1 ++ replicate n2 f2).
Proof.
  intros Hreach. split.
  - intros conn c Hc.
    destruct (reachable_fifo_inv _ Hreach _ _ Hc) as (lost & Hsent & Hlost).
    split; [|split].
    + exists (lost ++ buf (Send c)). done.
    + exists (sock_written (Conn c) ++ lost). by rewrite <- app_assoc.
    + intros Hrun. by rewrite Hsent, (Hlost Hrun).
  - intros chatID f1 f2 w1 w2. apply broadcastToChat_twice.
Qed.

(** ** Inbound frames *)

Lemma readPump_frame_reading conn message w :
  reading w conn →
  ∃ c, heap w !! conn = Some c ∧
    readPump_frame conn message w =
      match readPump_handle c message with
      | Discard => Ok w
      | ToHub data => hub_broadcast data w
      | ToSelf data =>
          do ch <- chan_send data (Send c);
          Ok (set_heap w (<[conn := with_Send c ch]> (heap w)))
      end.
Proof.
  intros (g & c & Hg & Hr & Hc & Hs). exists c. split; [done|].
  unfold readPump_frame. rewrite Hg, Hc, Hs. destruct g as [r wr].
  simpl in Hr. by rewrite Hr.
Qed.

Lemma readPump_handle_other c message m :
  json_Unmarshal message = Some m →
  Type_ m ≠ "typing" → Type_ m ≠ "ping" →
  readPump_handle c message = Discard.
Proof.
  intros Hu Ht Hp. unfold readPump_handle. rewrite Hu.
  by rewrite !decide_False.
Qed.

Lemma readPump_handle_malformed c message :
  json_Unmarshal message = None → readPump_handle c message = Discard.
Proof. intros Hu. unfold readPump_handle. by rewrite Hu. Qed.

(** C8: in a reachable state, a frame that does not decode, or whose type
    is none of the four of the wire contract, is dropped by the reader: the
    iteration ends normally with the state unchanged, so the reader is still
    in its loop and the socket is still open; and every frame a queue ever
    accepted, hence every frame written to a socket, is the encoding of an
    envelope of type [new_message], [typing] or [pong]. *)
Theorem unknown_frames_dropped_and_never_sent (w : World) :
  reachable w →
  (∀ conn message,
     reading w conn →
     json_Unmarshal message = None ∨
       (∃ m, json_Unmarshal message = Some m ∧ Type_ m ∉ wire_types) →
     readPump_frame conn message w = Ok w) ∧
  (∀ conn c data,
     heap w !! conn = Some c →
     data ∈ sent (Send c) ∨ data ∈ sock_written (Conn c) →
     known_frame data).
Proof.
  intros Hreach. split.
  - intros conn message Hread Hbad.
    destruct (readPump_frame_reading conn message w Hread) as (c & Hc & ->).
    destruct Hbad as [Hu|(m & Hu & Ht)].
    + by rewrite readPump_handle_malformed.
    + rewrite (readPump_handle_other c message m); [done..| |].
      * intros Heq. apply Ht. rewrite Heq. unfold wire_types. set_solver.
      * intros Heq. apply Ht. rewrite Heq. unfold wire_types. set_solver.
  - intros conn c data Hc Hin.
    apply (reachable_known_inv _ Hreach conn c data Hc).
    destruct Hin as [Hin|Hin]; [done|].
    destruct (reachable_fifo_inv _ Hreach _ _ Hc) as (lost & -> & _).
    apply elem_of_app. by left.
Qed.

(** C10: a decoded inbound frame whose type is neither [typing] nor [ping]
    ([new_message] among them) makes the reader do nothing: no frame goes to
    the hub or to a queue, and the state, the registry included, is as it
    was.  Whatever the reader hands to the hub is the encoding of a [typing]
    envelope, so a [new_message] frame can only come from
    [BroadcastMessage]. *)
Theorem inbound_new_message_is_ignored
    (w : World) (conn : ptr) (message : bytes) (m : WebSocketMessage Payload) :
  reading w conn →
  json_Unmarshal message = Some m →
  Type_ m = "new_message" ∨ (Type_ m ≠ "typing" ∧ Type_ m ≠ "ping") →
  (∀ c, readPump_handle c message = Discard) ∧
  readPump_frame conn message w = Ok w ∧
  (∀ c raw data, readPump_handle c raw = ToHub data →
     ∃ m', Type_ m' = "typing" ∧ json_Marshal m' = Some data).
Proof.
  intros Hread Hu Ht.
  assert (Hother : Type_ m ≠ "typing" ∧ Type_ m ≠ "ping").
  { destruct Ht as [->|?]; [|done]. by split. }
  destruct Hother as [Ht1 Ht2].
  assert (Hd : ∀ c, readPump_handle c message = Discard)
    by (intros c; by eapply readPump_handle_other).
  split; [done|]. split.
  - destruct (readPump_frame_reading conn message w Hread) as (c & Hc & ->).
    by rewrite Hd.
  - intros c raw data (wsMsg & _ & Hty & Hm)%readPump_handle_ToHub.
    exists (stamp wsMsg (UserID c)). by split.
Qed.

(** C6: a decoded [typing] frame read on a connection is handed to the hub
    as the encoding of the envelope with the same chat id and payload and
    with [user_id] set to the user id of the connection; two inbound
    [typing] frames that differ only in [user_id] have the same effect. *)
Theorem typing_is_stamped_with_connection_user
    (c : Connection) (raw1 raw2 : bytes) (m1 m2 : WebSocketMessage Payload) :
  json_Unmarshal raw1 = Some m1 → json_Unmarshal raw2 = Some m2 →
  Type_ m1 = "typing" → Type_ m2 = "typing" →
  ChatID m2 = ChatID m1 → Message m2 = Message m1 →
  readPump_handle c raw1 =
    match json_Marshal (mkMsg "typing" (ChatID m1) (Message m1) (UserID c)) with
    | Some data => ToHub data
    | None => Discard
    end ∧
  readPump_handle c raw2 = readPump_handle c raw1 ∧
  (∀ conn w, heap w !! conn = Some c →
     readPump_frame conn raw2 w = readPump_frame conn raw1 w).
Proof.
  intros Hu1 Hu2 Ht1 Ht2 Hchat Hmsg.
  assert (H1 : readPump_handle c raw1 =
    match json_Marshal (mkMsg "typing" (ChatID m1) (Message m1) (UserID c)) with
    | Some data => ToHub data
    | None => Discard
    end).
  { unfold readPump_handle. rewrite Hu1, decide_True by done.
    unfold stamp. by rewrite Ht1. }
  assert (H2 : readPump_handle c raw2 = readPump_handle c raw1).
  { rewrite H1. unfold readPump_handle. rewrite Hu2, decide_True by done.
    unfold stamp. by rewrite Ht2, Hchat, Hmsg. }
  split; [done|]. split; [done|].
  intros conn w Hc. unfold readPump_frame. rewrite Hc.
  destruct (pumps w !! conn) as [[[] wr]|]; try done.
  by rewrite H2.
Qed.

(** ** Register and Unregister *)

(** C3, as the code has it: the register case appends the connection to the
    slice of its user, so it adds exactly one entry for it, whether or not
    the connection was registered before; nothing else in the state
    changes. *)
Theorem hub_register_adds_one_entry (w : World) (conn : ptr) (c : Connection) :
  heap w !! conn = Some c →
  ∃ w', hub_register conn w = Ok w' ∧
    entries w' (UserID c) conn = entries w (UserID c) conn + 1 ∧
    (∀ userID q, userID ≠ UserID c ∨ q ≠ conn →
       entries w' userID q = entries w userID q) ∧
    heap w' = heap w ∧ pumps w' = pumps w.
Proof.
  intros Hc. unfold hub_register. rewrite Hc. eexists. split; [done|].
  unfold entries, conns_of. simpl. split; [|split; [|done]].
  - rewrite lookup_insert_eq. simpl. rewrite filter_app, length_app.
    f_equal. rewrite filter_cons, decide_True by done. done.
  - intros userID q [Hne|Hne].
    + by rewrite lookup_insert_ne.
    + destruct (decide (userID = UserID c)) as [->|Hu].
      * rewrite lookup_insert_eq. simpl. rewrite filter_app, length_app.
        rewrite filter_cons, decide_False by done. simpl. lia.
      * by rewrite lookup_insert_ne.
Qed.

Lemma index_of_absent conn conns :
  conn ∉ conns → index_of conn conns = None.
Proof.
  intros Hn. unfold index_of. apply fmap_None, list_find_None.
  apply Forall_forall. intros x Hx ->. done.
Qed.

Lemma hub_unregister_removes conn w w' c :
  hub_unregister conn w = Ok w' → registry_wf w → heap w !! conn = Some c →
  ¬ registered_under w' (UserID c) conn.
Proof.
  unfold hub_unregister, registered_under. intros Hun Hwf Hc. rewrite Hc in Hun.
  destruct (connections w !! UserID c) as [conns|] eqn:Hl.
  2:{ injection Hun as <-. unfold conns_of. rewrite Hl. apply not_elem_of_nil. }
  destruct (Hwf _ _ Hl) as (_ & Hnd & _).
  destruct (index_of conn conns) as [i|] eqn:Hi.
  - unfold chan_close in Hun. destruct (closed (Send c)); [done|]. simpl in Hun.
    unfold conns_of in Hun. simpl in Hun. rewrite lookup_insert_eq in Hun.
    simpl in Hun. rewrite <- delete_take_drop in Hun.
    apply index_of_Some in Hi.
    assert (Hgone : conn ∉ delete i conns).
    { rewrite delete_take_drop. rewrite <- (take_drop_middle _ _ _ Hi) in Hnd.
      apply NoDup_app in Hnd as (_ & Hd1 & Hd2).
      apply NoDup_cons in Hd2 as [Hd2 _].
      intros [Hin|Hin]%elem_of_app; [|done].
      apply (Hd1 _ Hin). left. }
    destruct (decide (length (delete i conns) = 0)); injection Hun as <-;
      unfold conns_of; simpl.
    + rewrite lookup_delete_eq. apply not_elem_of_nil.
    + by rewrite lookup_insert_eq.
  - simpl in Hun. apply index_of_None in Hi.
    destruct (decide (length (conns_of w (UserID c)) = 0)); injection Hun as <-;
      unfold conns_of; simpl.
    + rewrite lookup_delete_eq. apply not_elem_of_nil.
    + by rewrite Hl.
Qed.

(** A second unregister of the same connection changes nothing. *)
Lemma hub_unregister_twice conn w w1 :
  registry_wf w → hub_unregister conn w = Ok w1 →
  hub_unregister conn w1 = Ok w1.
Proof.
  intros Hwf Hun.
  destruct (heap w !! conn) as [c|] eqn:Hc;
    [|by unfold hub_unregister in Hun; rewrite Hc in Hun].
  pose proof (hub_unregister_removes _ _ _ _ Hun Hwf Hc) as Hgone.
  apply hub_unregister_spec in Hun as (_ & Heff & Hwf1).
  specialize (Hwf1 Hwf).
  destruct (effect_users _ _ Heff _ _ Hc) as (c1 & Hc1 & Hu1).
  unfold hub_unregister. rewrite Hc1, Hu1.
  unfold registered_under, conns_of in Hgone.
  destruct (connections w1 !! UserID c) as [conns|] eqn:Hl; [|done].
  simpl in Hgone. rewrite (index_of_absent _ _ Hgone). simpl.
  unfold conns_of. rewrite Hl. simpl.
  destruct (Hwf1 _ _ Hl) as (Hne & _).
  rewrite decide_False; [done|]. by destruct conns.
Qed.

(** ** Overflow *)

(** On a full queue [sendToUser] closes the queue and leaves the connection
    where it is in the registry. *)
Lemma sendToUser_overflow userID message w conn c :
  registry_wf w → registered_under w userID conn →
  heap w !! conn = Some c → is_full (Send c) →
  (∀ q d, registered_under w userID q → heap w !! q = Some d →
     closed (Send d) = false) →
  ∃ w', sendToUser userID message w = Ok w' ∧
    connections w' = connections w ∧
    heap w' !! conn = Some (with_Send c (chan_mark_closed (Send c))).
Proof.
  intros Hwf Hreg Hc Hfull Hopen.
  destruct (sendToUser_exact userID message w Hwf Hopen)
    as (w' & Hrun & Hconn & _ & Hheap).
  exists w'. split; [done|]. split; [done|].
  rewrite Hheap, decide_True, Hc by done. simpl. by rewrite offer_full.
Qed.

Lemma deliver_all_closed_panics message conns w conn c :
  (∀ q, q ∈ conns → is_Some (heap w !! q)) →
  conn ∈ conns → heap w !! conn = Some c → closed (Send c) = true →
  deliver_all message w conns = Panic "send on closed channel".
Proof.
  revert w c. induction conns as [|p rest IH]; intros w c Hheap Hin Hc Hcl.
  - by apply elem_of_nil in Hin.
  - simpl. unfold deliver.
    destruct (Hheap p) as [d Hd]; [left|]. rewrite Hd.
    unfold send_or_close, chan_close. destruct (closed (Send d)) eqn:Hdc; [done|].
    assert (Hne : conn ≠ p) by (intros ->; congruence).
    apply elem_of_cons in Hin as [?|Hin]; [done|].
    destruct (length (buf (Send d)) <? cap (Send d)); simpl.
    + apply (IH _ c); simpl; [|done|by rewrite lookup_insert_ne|done].
      intros q Hq. destruct (decide (q = p)) as [->|Hqp].
      * by rewrite lookup_insert_eq.
      * rewrite lookup_insert_ne by done. apply Hheap. by right.
    + apply (IH _ c); simpl; [|done|by rewrite lookup_insert_ne|done].
      intros q Hq. destruct (decide (q = p)) as [->|Hqp].
      * by rewrite lookup_insert_eq.
      * rewrite lookup_insert_ne by done. apply Hheap. by right.
Qed.

(** Once a registered connection has a closed queue, every delivery to its
    user panics ... *)
Lemma sendToUser_closed_panics userID message w conn c :
  registry_wf w → registered_under w userID conn →
  heap w !! conn = Some c → closed (Send c) = true →
  sendToUser userID message w = Panic "send on closed channel".
Proof.
  unfold registered_under, conns_of, sendToUser. intros Hwf Hreg Hc Hcl.
  destruct (connections w !! userID) as [conns|] eqn:Hl;
    [|by apply elem_of_nil in Hreg].
  apply (deliver_all_closed_panics _ _ _ conn c); try done.
  intros q Hq. destruct (Hwf _ _ Hl) as (_ & _ & Hin).
  destruct (Hin _ Hq) as (d & Hd & _). by exists d.
Qed.

(** ... and so does its unregistration. *)
Lemma hub_unregister_closed_panics w conn c :
  registered_under w (UserID c) conn →
  heap w !! conn = Some c → closed (Send c) = true →
  hub_unregister conn w = Panic "close of closed channel".
Proof.
  unfold registered_under, conns_of, hub_unregister. intros Hreg Hc Hcl.
  rewrite Hc.
  destruct (connections w !! UserID c) as [conns|] eqn:Hl;
    [|by apply elem_of_nil in Hreg].
  simpl in Hreg. destruct (index_of conn conns) as [i|] eqn:Hi.
  - unfold chan_close. by rewrite Hcl.
  - by apply index_of_None in Hi.
Qed.

(** ** What a step may do to a connection *)

Lemma conn_quiet_refl c : conn_quiet c c.
Proof. unfold conn_quiet. repeat split; auto. Qed.

Lemma conn_quiet_trans c1 c2 c3 :
  conn_quiet c1 c2 → conn_quiet c2 c3 → conn_quiet c1 c3.
Proof.
  intros (Hu & Hcap & Hw & Hs & Hcl & Hlen) (Hu' & Hcap' & Hw' & Hs' & Hcl' & Hlen').
  unfold conn_quiet. split; [congruence|]. split; [congruence|].
  split; [congruence|]. split; [auto|]. split.
  - intros Hc. rewrite <- (Hcl Hc). apply Hcl'. by rewrite (Hcl Hc).
  - rewrite Hcap in Hlen'. lia.
Qed.

Lemma conn_quiet_evolves c c' : conn_quiet c c' → conn_evolves c c'.
Proof.
  intros (Hu & Hcap & Hw & Hs & Hcl & Hlen). unfold conn_evolves.
  split; [done|]. split; [done|]. split; [auto|]. split; [|done].
  intros Hc. rewrite (Hcl Hc). split; [done|]. split; [done|]. by exists 0.
Qed.

Lemma conn_evolves_refl c : conn_evolves c c.
Proof. apply conn_quiet_evolves, conn_quiet_refl. Qed.

Lemma conn_evolves_trans c1 c2 c3 :
  conn_evolves c1 c2 → conn_evolves c2 c3 → conn_evolves c1 c3.
Proof.
  intros (Hu & Hcap & Hs & Hcl & Hlen) (Hu' & Hcap' & Hs' & Hcl' & Hlen').
  unfold conn_evolves. split; [congruence|]. split; [congruence|]. split; [|split].
  - intros Hc. destruct (Hs Hc) as [Hc2 Hw]. destruct (Hs' Hc2) as [Hc3 Hw'].
    split; [done|congruence].
  - intros Hc. destruct (Hcl Hc) as (Hc2 & Hl & k & Hk).
    destruct (Hcl' Hc2) as (Hc3 & Hl' & k' & Hk').
    split; [done|]. split; [congruence|]. exists (k + k').
    by rewrite Hk', Hk, drop_drop.
  - rewrite Hcap in Hlen'. lia.
Qed.

Lemma heap_rel_refl R h : (∀ c, R c c) → heap_rel R h h.
Proof. intros Hrefl conn c Hc. by exists c. Qed.

Lemma heap_rel_trans R h1 h2 h3 :
  (∀ c1 c2 c3, R c1 c2 → R c2 c3 → R c1 c3) →
  heap_rel R h1 h2 → heap_rel R h2 h3 → heap_rel R h1 h3.
Proof.
  intros Htrans H12 H23 conn c1 Hc1.
  destruct (H12 _ _ Hc1) as (c2 & Hc2 & HR12).
  destruct (H23 _ _ Hc2) as (c3 & Hc3 & HR23).
  exists c3. split; [done|]. by eapply Htrans.
Qed.

Lemma heap_rel_mono (R R' : Connection → Connection → Prop) h h' :
  (∀ c c', R c c' → R' c c') → heap_rel R h h' → heap_rel R' h h'.
Proof.
  intros Hsub Hrel conn c Hc. destruct (Hrel _ _ Hc) as (c' & Hc' & HR).
  exists c'. auto.
Qed.

(** The heap with one connection replaced. *)
Lemma heap_rel_insert R (h : gmap ptr Connection) p c c' :
  (∀ d, R d d) → h !! p = Some c → R c c' → heap_rel R h (<[p := c']> h).
Proof.
  intros Hrefl Hp HR conn d Hd. destruct (decide (conn = p)) as [->|Hne].
  - exists c'. rewrite lookup_insert_eq. split; [done|]. congruence.
  - exists d. by rewrite lookup_insert_ne.
Qed.

(** The heap with one connection added. *)
Lemma heap_rel_fresh R (h : gmap ptr Connection) p c' :
  (∀ d, R d d) → h !! p = None → heap_rel R h (<[p := c']> h).
Proof.
  intros Hrefl Hp conn d Hd. exists d. split; [|done].
  rewrite lookup_insert_ne; [done|]. intros ->. congruence.
Qed.

Lemma send_or_close_quiet message c ch :
  send_or_close message (Send c) = Ok ch → conn_quiet c (with_Send c ch).
Proof.
  unfold send_or_close, chan_close, conn_quiet.
  destruct (closed (Send c)) eqn:Hcl; [done|].
  destruct (Nat.ltb_spec (length (buf (Send c))) (cap (Send c)));
    intros [= <-]; simpl; repeat split; auto; try done.
  right. rewrite length_app. simpl. lia.
Qed.

Lemma chan_send_quiet message c ch :
  chan_send message (Send c) = Ok ch → conn_quiet c (with_Send c ch).
Proof.
  unfold chan_send, conn_quiet.
  destruct (closed (Send c)) eqn:Hcl; [done|].
  destruct (Nat.ltb_spec (length (buf (Send c))) (cap (Send c)));
    intros [= <-]; simpl; repeat split; auto; try done.
  right. rewrite length_app. simpl. lia.
Qed.

Lemma chan_close_quiet c ch :
  chan_close (Send c) = Ok ch → conn_quiet c (with_Send c ch).
Proof.
  unfold chan_close, conn_quiet.
  destruct (closed (Send c)) eqn:Hcl; [done|].
  intros [= <-]; simpl; repeat split; auto; done.
Qed.

Lemma socket_close_quiet c : conn_quiet c (with_Conn c (socket_close (Conn c))).
Proof. unfold conn_quiet. simpl. repeat split; auto. Qed.

Lemma deliver_quiet message w conn w' :
  deliver message w conn = Ok w' → heap_rel conn_quiet (heap w) (heap w').
Proof.
  unfold deliver. destruct (heap w !! conn) as [c|] eqn:Hc; [|done].
  destruct (send_or_close message (Send c)) as [ch| |] eqn:Hs; [|done..].
  intros [= <-]. simpl. eapply heap_rel_insert; [apply conn_quiet_refl|done|].
  by eapply send_or_close_quiet.
Qed.

Lemma deliver_all_quiet message conns w w' :
  deliver_all message w conns = Ok w' → heap_rel conn_quiet (heap w) (heap w').
Proof.
  revert w. induction conns as [|conn rest IH]; intros w; simpl.
  - intros [= <-]. apply heap_rel_refl, conn_quiet_refl.
  - destruct (deliver message w conn) as [w1| |] eqn:Hd; [|done..]. simpl.
    intros Hrest. eapply heap_rel_trans; [apply conn_quiet_trans| |by apply IH].
    by eapply deliver_quiet.
Qed.

Lemma sendToUser_quiet userID message w w' :
  sendToUser userID message w = Ok w' → heap_rel conn_quiet (heap w) (heap w').
Proof.
  unfold sendToUser. destruct (connections w !! userID).
  - apply deliver_all_quiet.
  - intros [= <-]. apply heap_rel_refl, conn_quiet_refl.
Qed.

Lemma broadcastToChat_quiet chatID message w w' :
  broadcastToChat chatID message w = Ok w' →
  heap_rel conn_quiet (heap w) (heap w').
Proof.
  unfold broadcastToChat.
  assert (Hrefl : Ok w = Ok w' → heap_rel conn_quiet (heap w) (heap w')).
  { intros [= <-]. apply heap_rel_refl, conn_quiet_refl. }
  destruct database_DB as [query|]; [|done].
  destruct (query chatID) as [[user1ID user2ID]|]; [|done].
  destruct (sendToUser user1ID message w) as [w1| |] eqn:H1; [|done..]. simpl.
  intros H2. eapply heap_rel_trans; [apply conn_quiet_trans| |].
  - by eapply sendToUser_quiet.
  - by eapply sendToUser_quiet.
Qed.

Lemma hub_broadcast_quiet message w w' :
  hub_broadcast message w = Ok w' → heap_rel conn_quiet (heap w) (heap w').
Proof.
  unfold hub_broadcast.
  assert (Hrefl : Ok w = Ok w' → heap_rel conn_quiet (heap w) (heap w')).
  { intros [= <-]. apply heap_rel_refl, conn_quiet_refl. }
  destruct (json_Unmarshal message) as [wsMsg|]; [|done].
  destruct (decide (ChatID wsMsg = "")); [done|].
  apply broadcastToChat_quiet.
Qed.

Lemma BroadcastMessage_quiet chatID payload w w' :
  BroadcastMessage chatID payload w = Ok w' →
  heap_rel conn_quiet (heap w) (heap w').
Proof.
  unfold BroadcastMessage.
  destruct (json_Marshal (new_message chatID payload)) as [data|].
  - apply hub_broadcast_quiet.
  - intros [= <-]. apply heap_rel_refl, conn_quiet_refl.
Qed.

Lemma hub_unregister_quiet conn w w' :
  hub_unregister conn w = Ok w' → heap_rel conn_quiet (heap w) (heap w').
Proof.
  unfold hub_unregister.
  destruct (heap w !! conn) as [c|] eqn:Hc; [|done].
  destruct (connections w !! UserID c) as [conns|] eqn:Hl.
  2:{ intros [= <-]. apply heap_rel_refl, conn_quiet_refl. }
  destruct (index_of conn conns) as [i|] eqn:Hi.
  - destruct (chan_close (Send c)) as [ch| |] eqn:Hch; [|done..]. simpl.
    assert (Hq : heap_rel conn_quiet (heap w) (<[conn := with_Send c ch]> (heap w))).
    { eapply heap_rel_insert; [apply conn_quiet_refl|done|].
      by apply chan_close_quiet. }
    by case_decide; intros [= <-].
  - simpl. case_decide; intros [= <-]; apply heap_rel_refl, conn_quiet_refl.
Qed.

Lemma HandleWebSocket_quiet userID w w' :
  HandleWebSocket userID w = Ok w' → heap_rel conn_quiet (heap w) (heap w').
Proof.
  destruct (HandleWebSocket_spec userID w) as [Hfresh ->].
  intros [= <-]. simpl. by apply heap_rel_fresh; [apply conn_quiet_refl|].
Qed.

Lemma readPump_frame_quiet conn message w w' :
  readPump_frame conn message w = Ok w' →
  heap_rel conn_quiet (heap w) (heap w').
Proof.
  unfold readPump_frame.
  destruct (pumps w !! conn) as [[[] wr]|]; try done;
    destruct (heap w !! conn) as [c|] eqn:Hc; try done.
  destruct (sock_closed (Conn c)); [done|].
  destruct (readPump_handle c message) as [|data|data].
  - intros [= <-]. apply heap_rel_refl, conn_quiet_refl.
  - apply hub_broadcast_quiet.
  - destruct (chan_send data (Send c)) as [ch| |] eqn:Hs; [|done..]. simpl.
    intros [= <-]. simpl.
    eapply heap_rel_insert; [apply conn_quiet_refl|done|].
    by eapply chan_send_quiet.
Qed.

Lemma readPump_exit_quiet conn w w' :
  readPump_exit conn w = Ok w' → heap_rel conn_quiet (heap w) (heap w').
Proof.
  unfold readPump_exit.
  destruct (pumps w !! conn) as [[[] wr]|]; try done.
  destruct (hub_unregister conn w) as [w1| |] eqn:Hu; [|done..]. simpl.
  intros [= <-]. rewrite heap_set_reader. by eapply hub_unregister_quiet.
Qed.

Lemma readPump_close_quiet conn w w' :
  readPump_close conn w = Ok w' → heap_rel conn_quiet (heap w) (heap w').
Proof.
  unfold readPump_close.
  destruct (pumps w !! conn) as [[[] wr]|]; try done;
    destruct (heap w !! conn) as [c|] eqn:Hc; try done.
  intros [= <-]. rewrite heap_set_reader. simpl.
  eapply heap_rel_insert; [apply conn_quiet_refl|done|].
  apply socket_close_quiet.
Qed.

Lemma writePump_end_quiet conn w w' :
  writePump_end conn w = Ok w' → heap_rel conn_quiet (heap w) (heap w').
Proof.
  unfold writePump_end.
  destruct (pumps w !! conn) as [[rd []]|] eqn:Hg; try done;
    destruct (heap w !! conn) as [c|] eqn:Hc; try done.
  destruct (buf (Send c)) eqn:Hb; [|done].
  destruct (closed (Send c)); [|done].
  intros [= <-]. rewrite heap_set_writer. simpl.
  eapply heap_rel_insert; [apply conn_quiet_refl|done|].
  apply socket_close_quiet.
Qed.

Lemma writePump_frame_evolves conn ok w w' :
  writePump_frame conn ok w = Ok w' →
  heap_rel conn_evolves (heap w) (heap w').
Proof.
  unfold writePump_frame.
  destruct (pumps w !! conn) as [[rd []]|] eqn:Hg; try done;
    destruct (heap w !! conn) as [c|] eqn:Hc; try done.
  destruct (buf (Send c)) as [|message rest] eqn:Hb; [done|].
  unfold WriteMessage. simpl.
  assert (Hpop : ∀ s,
    (sock_closed (Conn c) = true →
       sock_closed s = true ∧ sock_written s = sock_written (Conn c)) →
    conn_evolves c (with_Conn (with_Send c (chan_pop (Send c))) s)).
  { intros s Hs. unfold conn_evolves. simpl. rewrite Hb. simpl.
    split; [reflexivity|]. split; [reflexivity|]. split; [exact Hs|].
    split; [|lia].
    intros Hcl. split; [exact Hcl|]. split; [reflexivity|]. by exists 1. }
  destruct (sock_closed (Conn c)) eqn:Hsc; [|destruct ok]; intros [= <-];
    rewrite ?heap_set_writer; simpl;
    (eapply heap_rel_insert; [apply conn_evolves_refl|done|]);
    apply Hpop; simpl; done.
Qed.

Lemma step_evolves w ev w' :
  step w ev = Ok w' → heap_rel conn_evolves (heap w) (heap w').
Proof.
  destruct ev; simpl; intros Hstep;
    try (by eapply writePump_frame_evolves);
    eapply heap_rel_mono; try apply conn_quiet_evolves.
  - by eapply HandleWebSocket_quiet.
  - by eapply BroadcastMessage_quiet.
  - by eapply readPump_frame_quiet.
  - by eapply readPump_exit_quiet.
  - by eapply readPump_close_quiet.
  - by eapply writePump_end_quiet.
Qed.

Lemma run_evolves evs w w' :
  run w evs = Ok w' → heap_rel conn_evolves (heap w) (heap w').
Proof.
  revert w. induction evs as [|ev rest IH]; intros w; simpl.
  - intros [= <-]. apply heap_rel_refl, conn_evolves_refl.
  - destruct (step w ev) as [w1| |] eqn:Hs; [|done..]. simpl. intros Hrun.
    eapply heap_rel_trans; [apply conn_evolves_trans| |by apply IH].
    by eapply step_evolves.
Qed.

(** X1: in every reachable state every queue has capacity 256 and holds at
    most 256 frames: neither the hub nor a reader ever lets a backlog grow
    beyond the buffer [HandleWebSocket] allocated. *)
Theorem queue_never_exceeds_capacity (w : World) (conn : ptr) (c : Connection) :
  reachable w → heap w !! conn = Some c →
  cap (Send c) = 256 ∧ length (buf (Send c)) ≤ 256.
Proof.
  intros Hreach. revert conn c.
  change (bounded_inv w). revert w Hreach. apply reachable_invariant.
  - intros conn c Hc. simpl in Hc. by rewrite lookup_empty in Hc.
  - intros w ev w' Hinv Hstep conn c' Hc'.
    destruct (step_effect _ _ _ Hstep conn)
      as [_ Hn|c d fs Hc Hd _ _ _ _ _ _|u _ Hf|c d m rest Hc Hd _ _ _ _ _ _].
    + congruence.
    + destruct (step_evolves _ _ _ Hstep _ _ Hc) as (c2 & Hc2 & _ & Hcap & _ & _ & Hlen).
      assert (c2 = c') as -> by congruence.
      destruct (Hinv _ _ Hc) as [Hcap0 Hlen0]. rewrite Hcap, Hcap0 in *. lia.
    + assert (c' = new_connection u) as -> by congruence. simpl. lia.
    + destruct (step_evolves _ _ _ Hstep _ _ Hc) as (c2 & Hc2 & _ & Hcap & _ & _ & Hlen).
      assert (c2 = c') as -> by congruence.
      destruct (Hinv _ _ Hc) as [Hcap0 Hlen0]. rewrite Hcap, Hcap0 in *. lia.
Qed.

(** X2: closing is final.  Along any run, a connection stays in the heap
    with its user; once its socket is closed it stays closed and no further
    frame is written to it; once its queue is closed it stays closed and
    accepts no further frame (what is left in it can only be taken out). *)
Theorem closed_stays_closed
    (evs : list (Event Payload)) (w w' : World) (conn : ptr) (c : Connection) :
  run w evs = Ok w' → heap w !! conn = Some c →
  ∃ c', heap w' !! conn = Some c' ∧ UserID c' = UserID c ∧
    (sock_closed (Conn c) = true →
       sock_closed (Conn c') = true ∧
       sock_written (Conn c') = sock_written (Conn c)) ∧
    (closed (Send c) = true →
       closed (Send c') = true ∧ sent (Send c') = sent (Send c) ∧
       ∃ k, buf (Send c') = drop k (buf (Send c))).
Proof.
  intros Hrun Hc.
  destruct (run_evolves _ _ _ Hrun _ _ Hc) as (c' & Hc' & Hu & _ & Hs & Hcl & _).
  exists c'. done.
Qed.

(** ** The pumps and the registry *)

Lemma registered_same w w' q :
  connections w' = connections w → registered w' q → registered w q.
Proof.
  intros Hc [u Hu]. exists u. unfold registered_under, conns_of in *.
  by rewrite <- Hc.
Qed.

Lemma hub_unregister_sub conn w w' :
  hub_unregister conn w = Ok w' →
  ∀ u l', connections w' !! u = Some l' →
    ∃ l, connections w !! u = Some l ∧ l' `sublist_of` l.
Proof.
  unfold hub_unregister.
  destruct (heap w !! conn) as [c|] eqn:Hc; [|done].
  destruct (connections w !! UserID c) as [conns|] eqn:Hl.
  2:{ intros [= <-] u l' Hl'. by exists l'. }
  assert (Hdel : ∀ m : gmap string (list ptr),
    (∀ u l', m !! u = Some l' →
       ∃ l, connections w !! u = Some l ∧ l' `sublist_of` l) →
    ∀ u l', delete (UserID c) m !! u = Some l' →
       ∃ l, connections w !! u = Some l ∧ l' `sublist_of` l).
  { intros m Hm u l'. destruct (decide (u = UserID c)) as [->|Hne].
    - by rewrite lookup_delete_eq.
    - rewrite lookup_delete_ne by done. apply Hm. }
  assert (Hid : ∀ u l', connections w !! u = Some l' →
            ∃ l, connections w !! u = Some l ∧ l' `sublist_of` l)
    by (intros u l' Hl'; by exists l').
  destruct (index_of conn conns) as [i|] eqn:Hi.
  - unfold chan_close. destruct (closed (Send c)) eqn:Hcl; [done|]. simpl.
    unfold conns_of. simpl. rewrite lookup_insert_eq. simpl.
    rewrite <- delete_take_drop.
    assert (Hins : ∀ u l',
      <[UserID c := delete i conns]> (connections w) !! u = Some l' →
      ∃ l, connections w !! u = Some l ∧ l' `sublist_of` l).
    { intros u l'. destruct (decide (u = UserID c)) as [->|Hne].
      - rewrite lookup_insert_eq. intros [= <-]. exists conns. split; [done|].
        apply sublist_delete.
      - rewrite lookup_insert_ne by done. apply Hid. }
    destruct (decide (length (delete i conns) = 0)); intros [= <-]; simpl.
    + by apply Hdel.
    + done.
  - simpl. unfold conns_of. rewrite Hl. simpl.
    destruct (decide (length conns = 0)); intros [= <-]; simpl.
    + by apply Hdel.
    + done.
Qed.

Lemma hub_unregister_registered conn w w' u q :
  hub_unregister conn w = Ok w' →
  registered_under w' u q → registered_under w u q.
Proof.
  intros Hun. unfold registered_under, conns_of.
  destruct (connections w' !! u) as [l'|] eqn:Hl'; simpl;
    [|by intros ?%elem_of_nil].
  destruct (hub_unregister_sub _ _ _ Hun _ _ Hl') as (l & -> & Hsub).
  simpl. intros Hq. by eapply elem_of_sublist.
Qed.

Lemma readPump_frame_pumps conn message w w' :
  readPump_frame conn message w = Ok w' → pumps w' = pumps w.
Proof.
  unfold readPump_frame.
  destruct (pumps w !! conn) as [[[] wr]|]; try done;
    destruct (heap w !! conn) as [c|] eqn:Hc; try done.
  destruct (sock_closed (Conn c)); [done|].
  destruct (readPump_handle c message) as [|data|data].
  - by intros [= <-].
  - by intros (_ & ? & _)%hub_broadcast_fed.
  - destruct (chan_send data (Send c)); [|done..]. by intros [= <-].
Qed.

Lemma BroadcastMessage_pumps chatID payload w w' :
  BroadcastMessage chatID payload w = Ok w' → pumps w' = pumps w.
Proof.
  unfold BroadcastMessage.
  destruct (json_Marshal (new_message chatID payload)).
  - by intros (_ & ? & _)%hub_broadcast_fed.
  - by intros [= <-].
Qed.

Lemma lookup_set_reader conn r w q g' :
  pumps (set_reader conn r w) !! q = Some g' →
  ∃ g, pumps w !! q = Some g ∧ writer g' = writer g ∧
       (q ≠ conn → g' = g) ∧ (q = conn → reader g' = r).
Proof.
  unfold set_reader. destruct (pumps w !! conn) as [g0|] eqn:Hg0.
  - simpl. destruct (decide (q = conn)) as [->|Hne].
    + rewrite lookup_insert_eq. intros [= <-]. exists g0. by repeat split.
    + rewrite lookup_insert_ne by done. intros Hg. exists g'. by repeat split.
  - intros Hg. exists g'. repeat split; try done. intros ->. congruence.
Qed.

Lemma lookup_set_writer conn b w q g' :
  pumps (set_writer conn b w) !! q = Some g' →
  ∃ g, pumps w !! q = Some g ∧ reader g' = reader g ∧
       (q ≠ conn → g' = g) ∧ (q = conn → writer g' = b).
Proof.
  unfold set_writer. destruct (pumps w !! conn) as [g0|] eqn:Hg0.
  - simpl. destruct (decide (q = conn)) as [->|Hne].
    + rewrite lookup_insert_eq. intros [= <-]. exists g0. by repeat split.
    + rewrite lookup_insert_ne by done. intros Hg. exists g'. by repeat split.
  - intros Hg. exists g'. repeat split; try done. intros ->. congruence.
Qed.

(** A step that registers nothing and starts no pump keeps the invariant,
    when each pump that stopped closed the socket and each reader that left
    was taken out of the registry. *)
Lemma lifecycle_update w w' :
  lifecycle_inv w →
  (∀ q, registered w' q → registered w q) →
  heap_rel conn_evolves (heap w) (heap w') →
  (∀ q g', pumps w' !! q = Some g' →
     ∃ g, pumps w !! q = Some g ∧
       (writer g' = false →
          writer g = false ∨
          ∀ c', heap w' !! q = Some c' → sock_closed (Conn c') = true) ∧
       (reader g' = RDone →
          reader g = RDone ∨
          ∀ c', heap w' !! q = Some c' → sock_closed (Conn c') = true) ∧
       (reader g' ≠ RRunning → reader g ≠ RRunning ∨ ¬ registered w' q)) →
  lifecycle_inv w'.
Proof.
  intros Hinv Hreg Hheap Hpumps q g' Hg'.
  destruct (Hpumps _ _ Hg') as (g & Hg & Hw & Hr & Hx).
  destruct (Hinv _ _ Hg) as (c & Hc & Hcw & Hcr & Hcx).
  destruct (Hheap _ _ Hc) as (c' & Hc' & _ & _ & Hs & _).
  exists c'. split; [done|]. split; [|split].
  - intros Hf. destruct (Hw Hf) as [Hold|Hnew]; [|by apply Hnew].
    by apply Hs, Hcw.
  - intros Hf. destruct (Hr Hf) as [Hold|Hnew]; [|by apply Hnew].
    by apply Hs, Hcr.
  - intros Hf. destruct (Hx Hf) as [Hold|Hnew]; [|done].
    intros Hq. by apply (Hcx Hold), Hreg.
Qed.

Lemma lifecycle_same_pumps w w' :
  lifecycle_inv w → connections w' = connections w → pumps w' = pumps w →
  heap_rel conn_evolves (heap w) (heap w') → lifecycle_inv w'.
Proof.
  intros Hinv Hc Hp Hheap. apply (lifecycle_update w); [done| |done|].
  - intros q. by apply registered_same.
  - intros q g' Hg'. rewrite Hp in Hg'. exists g'. split; [done|]. auto.
Qed.

Lemma step_lifecycle w ev w' :
  registry_wf w → lifecycle_inv w → step w ev = Ok w' → lifecycle_inv w'.
Proof.
  intros Hwf Hinv Hstep.
  pose proof (step_evolves _ _ _ Hstep) as Hheap.
  destruct ev as [userID|chatID payload|conn message|conn|conn|conn ok|conn];
    simpl in Hstep.
  - (* HandleWebSocket *)
    destruct (HandleWebSocket_spec userID w) as [Hfresh Heq].
    rewrite Heq in Hstep. injection Hstep as <-.
    set (p := fresh (dom (heap w))) in *.
    intros q g' Hg'. simpl in Hg'.
    destruct (decide (q = p)) as [->|Hne].
    + rewrite lookup_insert_eq in Hg'. injection Hg' as <-.
      exists (new_connection userID). simpl. rewrite lookup_insert_eq.
      split; [done|]. by repeat split.
    + rewrite lookup_insert_ne in Hg' by done.
      destruct (Hinv _ _ Hg') as (c & Hc & Hcw & Hcr & Hcx).
      exists c. simpl. rewrite lookup_insert_ne by done.
      split; [done|]. split; [done|]. split; [done|].
      intros Hrun [u Hu]. apply (Hcx Hrun). exists u.
      unfold registered_under, conns_of in *. simpl in Hu.
      destruct (decide (u = userID)) as [->|Hu'].
      * rewrite lookup_insert_eq in Hu. simpl in Hu.
        apply elem_of_app in Hu as [Hu|Hu]; [done|].
        apply list_elem_of_singleton in Hu. done.
      * by rewrite lookup_insert_ne in Hu.
  - (* BroadcastMessage *)
    apply (lifecycle_same_pumps w); [done| | |done].
    + by apply BroadcastMessage_spec in Hstep as [? _].
    + by eapply BroadcastMessage_pumps.
  - (* readPump, a frame *)
    apply (lifecycle_same_pumps w); [done| | |done].
    + by apply readPump_frame_spec in Hstep as [? _].
    + by eapply readPump_frame_pumps.
  - (* readPump leaves its loop *)
    unfold readPump_exit in Hstep.
    destruct (pumps w !! conn) as [[[] wr]|] eqn:Hg; try done.
    destruct (hub_unregister conn w) as [w1| |] eqn:Hu; [|done..].
    simpl in Hstep. injection Hstep as <-.
    pose proof (hub_unregister_spec _ _ _ Hu) as (Hp1 & Heff1 & Hwf1).
    specialize (Hwf1 Hwf).
    apply (lifecycle_update w); [done| |done|].
    + intros q [u Hq]. exists u. unfold registered_under, conns_of in Hq.
      rewrite connections_set_reader in Hq.
      by eapply hub_unregister_registered.
    + intros q g' Hg'. apply lookup_set_reader in Hg' as (g & Hg1 & Hw & Hne & Heq).
      rewrite Hp1 in Hg1. exists g. split; [done|].
      split; [rewrite Hw; auto|].
      destruct (decide (q = conn)) as [->|Hq].
      * split; [rewrite (Heq eq_refl); done|]. intros _. right.
        intros [u Hreg]. unfold registered_under, conns_of in Hreg.
        rewrite connections_set_reader in Hreg.
        destruct (Hinv _ _ Hg) as (c & Hc & _).
        destruct (registered_under_wf _ _ _ Hwf1 Hreg) as (c1 & Hc1 & Hu1).
        destruct (effect_users _ _ Heff1 _ _ Hc) as (c2 & Hc2 & Hu2).
        assert (u = UserID c) as -> by congruence.
        by apply (hub_unregister_removes _ _ _ _ Hu Hwf Hc).
      * rewrite (Hne Hq). auto.
  - (* readPump closes the socket *)
    unfold readPump_close in Hstep.
    destruct (pumps w !! conn) as [[[] wr]|] eqn:Hg; try done;
      destruct (heap w !! conn) as [c|] eqn:Hc; try done.
    injection Hstep as <-.
    apply (lifecycle_update w); [done| |done|].
    + intros q. apply registered_same. by rewrite connections_set_reader.
    + intros q g' Hg'. apply lookup_set_reader in Hg' as (g & Hg1 & Hw & Hne & Heq).
      simpl in Hg1. exists g. split; [done|]. split; [rewrite Hw; auto|].
      destruct (decide (q = conn)) as [->|Hq].
      * split.
        -- intros _. right. intros c'. rewrite heap_set_reader. simpl.
           rewrite lookup_insert_eq. by intros [= <-].
        -- intros _. left. assert (g = mkPumps RExiting wr) as -> by congruence.
           done.
      * rewrite (Hne Hq). auto.
  - (* writePump, a frame *)
    unfold writePump_frame in Hstep.
    destruct (pumps w !! conn) as [[rd []]|] eqn:Hg; try done;
      destruct (heap w !! conn) as [c|] eqn:Hc; try done.
    destruct (buf (Send c)) as [|message rest] eqn:Hb; [done|].
    assert (Hstop : lifecycle_inv
      (set_writer conn false
         (set_heap w
            (<[conn := with_Conn (with_Send c (chan_pop (Send c)))
                         (socket_close (Conn (with_Send c (chan_pop (Send c)))))]>
               (heap w)))) → ∀ w2, w2 = set_writer conn false
         (set_heap w
            (<[conn := with_Conn (with_Send c (chan_pop (Send c)))
                         (socket_close (Conn (with_Send c (chan_pop (Send c)))))]>
               (heap w))) → lifecycle_inv w2) by (by intros ? ? ->).
    unfold WriteMessage in Hstep. simpl in Hstep.
    destruct (sock_closed (Conn c)) eqn:Hsc; [|destruct ok]; injection Hstep as <-.
    + apply (lifecycle_update w); [done| |done|].
      * intros q. apply registered_same. by rewrite connections_set_writer.
      * intros q g' Hg'.
        apply lookup_set_writer in Hg' as (g & Hg1 & Hr & Hne & Heq).
        simpl in Hg1. exists g. split; [done|].
        destruct (decide (q = conn)) as [->|Hq].
        -- split; [|rewrite Hr; auto]. intros _. right. intros c'.
           rewrite heap_set_writer. simpl. rewrite lookup_insert_eq.
           by intros [= <-].
        -- rewrite (Hne Hq). auto.
    + apply (lifecycle_update w); [done| |done|].
      * intros q. by apply registered_same.
      * intros q g' Hg'. simpl in Hg'. exists g'. split; [done|]. auto.
    + apply (lifecycle_update w); [done| |done|].
      * intros q. apply registered_same. by rewrite connections_set_writer.
      * intros q g' Hg'.
        apply lookup_set_writer in Hg' as (g & Hg1 & Hr & Hne & Heq).
        simpl in Hg1. exists g. split; [done|].
        destruct (decide (q = conn)) as [->|Hq].
        -- split; [|rewrite Hr; auto]. intros _. right. intros c'.
           rewrite heap_set_writer. simpl. rewrite lookup_insert_eq.
           by intros [= <-].
        -- rewrite (Hne Hq). auto.
  - (* writePump, the end of the range *)
    unfold writePump_end in Hstep.
    destruct (pumps w !! conn) as [[rd []]|] eqn:Hg; try done;
      destruct (heap w !! conn) as [c|] eqn:Hc; try done.
    destruct (buf (Send c)) eqn:Hb; [|done].
    destruct (closed (Send c)); [|done].
    injection Hstep as <-.
    apply (lifecycle_update w); [done| |done|].
    + intros q. apply registered_same. by rewrite connections_set_writer.
    + intros q g' Hg'.
      apply lookup_set_writer in Hg' as (g & Hg1 & Hr & Hne & Heq).
      simpl in Hg1. exists g. split; [done|].
      destruct (decide (q = conn)) as [->|Hq].
      * split; [|rewrite Hr; auto]. intros _. right. intros c'.
        rewrite heap_set_writer. simpl. rewrite lookup_insert_eq.
        by intros [= <-].
      * rewrite (Hne Hq). auto.
Qed.

Lemma reachable_lifecycle w : reachable w → lifecycle_inv w.
Proof.
  intros Hreach.
  cut (registry_wf w ∧ lifecycle_inv w); [by intros [_ ?]|].
  revert w Hreach. apply reachable_invariant.
  - split.
    + intros u l Hl. simpl in Hl. by rewrite lookup_empty in Hl.
    + intros q g Hg. simpl in Hg. by rewrite lookup_empty in Hg.
  - intros w ev w' [Hwf Hinv] Hstep. split.
    + by eapply step_registry_wf.
    + by eapply step_lifecycle.
Qed.

(** X3: in every reachable state, a connection whose writer has returned, or
    whose reader has run its deferred close, has a closed socket. *)
Theorem stopped_pump_has_closed_socket
    (w : World) (conn : ptr) (g : Pumps) (c : Connection) :
  reachable w → pumps w !! conn = Some g → heap w !! conn = Some c →
  writer g = false ∨ reader g = RDone →
  sock_closed (Conn c) = true.
Proof.
  intros Hreach Hg Hc Hstop.
  destruct (reachable_lifecycle _ Hreach _ _ Hg) as (c' & Hc' & Hw & Hr & _).
  assert (c' = c) as -> by congruence.
  destruct Hstop; auto.
Qed.







(** ** After Unregister *)

Lemma hub_unregister_unregisters conn w w1 :
  registry_wf w → hub_unregister conn w = Ok w1 → ¬ registered w1 conn.
Proof.
  intros Hwf Hun [u Hreg].
  pose proof (hub_unregister_registered _ _ _ _ _ Hun Hreg) as Hold.
  destruct (registered_under_wf _ _ _ Hwf Hold) as (c & Hc & <-).
  by apply (hub_unregister_removes _ _ _ _ Hun Hwf Hc).
Qed.

Lemma deliver_all_other message conns w w' conn :
  conn ∉ conns → deliver_all message w conns = Ok w' →
  heap w' !! conn = heap w !! conn.
Proof.
  revert w. induction conns as [|p rest IH]; intros w Hn; simpl.
  - by intros [= <-].
  - unfold deliver. destruct (heap w !! p) as [c|] eqn:Hc; [|done].
    destruct (send_or_close message (Send c)) as [ch| |]; [|done..]. simpl.
    intros Hrest. rewrite (IH _ (λ H, Hn (list_elem_of_further _ _ _ H)) Hrest).
    simpl. rewrite lookup_insert_ne; [done|]. intros ->. apply Hn. left.
Qed.

Lemma sendToUser_other userID message w w' conn :
  ¬ registered_under w userID conn → sendToUser userID message w = Ok w' →
  heap w' !! conn = heap w !! conn.
Proof.
  unfold registered_under, conns_of, sendToUser.
  destruct (connections w !! userID) as [conns|]; simpl.
  - apply deliver_all_other.
  - by intros _ [= <-].
Qed.

Lemma broadcastToChat_other chatID message w w' conn :
  ¬ registered w conn → broadcastToChat chatID message w = Ok w' →
  heap w' !! conn = heap w !! conn.
Proof.
  intros Hn. unfold broadcastToChat.
  destruct database_DB as [query|]; [|by intros [= <-]].
  destruct (query chatID) as [[user1ID user2ID]|]; [|by intros [= <-]].
  destruct (sendToUser user1ID message w) as [w1| |] eqn:H1; [|done..]. simpl.
  intros H2.
  assert (Hfirst : heap w1 !! conn = heap w !! conn).
  { apply (sendToUser_other user1ID message); [|done].
    intros Hr. apply Hn. by exists user1ID. }
  rewrite <- Hfirst. apply (sendToUser_other user2ID message); [|done].
  apply sendToUser_fed in H1 as (Hc & _).
  unfold registered_under, conns_of. rewrite Hc.
  intros Hr. apply Hn. by exists user2ID.
Qed.

(** X5: after the unregister case has run for a connection, the connection
    is in no slice of the registry, and no [sendToUser] and no
    [broadcastToChat] touches it any more, whatever the user or the chat. *)
Theorem unregistered_connection_gets_no_frame (w w1 : World) (conn : ptr) :
  registry_wf w → hub_unregister conn w = Ok w1 →
  ¬ registered w1 conn ∧
  (∀ userID message w2, sendToUser userID message w1 = Ok w2 →
     heap w2 !! conn = heap w1 !! conn) ∧
  (∀ chatID message w2, broadcastToChat chatID message w1 = Ok w2 →
     heap w2 !! conn = heap w1 !! conn).
Proof.
  intros Hwf Hun.
  pose proof (hub_unregister_unregisters _ _ _ Hwf Hun) as Hgone.
  split; [done|]. split.
  - intros userID message w2. apply sendToUser_other.
    intros Hr. apply Hgone. by exists userID.
  - intros chatID message w2. by apply broadcastToChat_other.
Qed.

Lemma index_of_middle (l1 l2 : list ptr) conn :
  conn ∉ l1 → index_of conn (l1 ++ conn :: l2) = Some (length l1).
Proof.
  intros Hn. unfold index_of.
  assert (Hf : list_find (λ c, c = conn) (l1 ++ conn :: l2) =
               Some (length l1, conn)).
  { apply list_find_Some. split; [by apply list_lookup_middle|]. split; [done|].
    intros j y Hj Hlt ->. apply Hn.
    rewrite lookup_app_l in Hj by done. by eapply list_elem_of_lookup_2. }
  by rewrite Hf.
Qed.

(** X6: the unregister case, for a connection with an open queue that is in
    the slice of its user: the first entry for the connection is taken out
    and the order of the others is kept; the key of the user is deleted when
    no entry is left; the queue is closed; nothing else changes. *)
Theorem hub_unregister_removes_first_entry
    (w : World) (conn : ptr) (c : Connection) (l1 l2 : list ptr) :
  heap w !! conn = Some c →
  connections w !! UserID c = Some (l1 ++ conn :: l2) →
  conn ∉ l1 → closed (Send c) = false →
  hub_unregister conn w =
    Ok (mkWorld
          (if decide (l1 ++ l2 = [])
           then delete (UserID c) (connections w)
           else <[UserID c := l1 ++ l2]> (connections w))
          (<[conn := with_Send c (chan_mark_closed (Send c))]> (heap w))
          (pumps w)).
Proof.
  intros Hc Hl Hn Hcl. unfold hub_unregister, chan_close.
  rewrite Hc, Hl, (index_of_middle _ _ _ Hn), Hcl. simpl.
  unfold conns_of. simpl. rewrite lookup_insert_eq. simpl.
  rewrite take_app_length.
  replace (drop (S (length l1)) (l1 ++ conn :: l2)) with l2.
  2:{ rewrite cons_middle, app_assoc.
      rewrite drop_app_length'; [done|]. rewrite length_app. simpl. lia. }
  destruct (decide (l1 ++ l2 = [])) as [Hnil|Hnil].
  - rewrite decide_True by (by rewrite Hnil).
    unfold set_connections. simpl. by rewrite delete_insert_eq.
  - rewrite decide_False; [done|]. intros Hlen. apply Hnil.
    by apply length_zero_iff_nil.
Qed.

(** X7: the unregister case for a connection that is not in the slice of
    its user does nothing: the state is as it was, and the queue of the
    connection is not closed. *)
Theorem hub_unregister_unknown_is_noop (w : World) (conn : ptr) (c : Connection) :
  heap w !! conn = Some c →
  ¬ registered_under w (UserID c) conn →
  connections w !! UserID c ≠ Some [] →
  hub_unregister conn w = Ok w.
Proof.
  intros Hc Hn Hne. unfold hub_unregister. rewrite Hc.
  unfold registered_under, conns_of in Hn.
  destruct (connections w !! UserID c) as [conns|] eqn:Hl; [|done].
  simpl in Hn. rewrite (index_of_absent _ _ Hn). simpl.
  unfold conns_of. rewrite Hl. simpl.
  rewrite decide_False; [done|]. intros Hlen. apply Hne. f_equal.
  by apply length_zero_iff_nil.
Qed.

(** X8: a registration is seen by the next delivery.  [HandleWebSocket]
    always succeeds; the connection it allocates is new, for the given user,
    with an empty open queue; and a [sendToUser] for that user right after
    it puts the frame on that queue (the other queues of the user being
    open). *)
Theorem register_then_send_reaches_new_connection
    (w : World) (userID : string) (message : bytes) :
  registry_wf w →
  (∀ conn c, registered_under w userID conn → heap w !! conn = Some c →
     closed (Send c) = false) →
  let conn := fresh (dom (heap w)) in
  heap w !! conn = None ∧
  ∃ w1 w2,
    HandleWebSocket userID w = Ok w1 ∧
    heap w1 !! conn = Some (new_connection userID) ∧
    conns_of w1 userID = conns_of w userID ++ [conn] ∧
    sendToUser userID message w1 = Ok w2 ∧
    heap w2 !! conn =
      Some (with_Send (new_connection userID)
              (chan_push message (make_chan 256))).
Proof.
  intros Hwf Hopen conn.
  destruct (HandleWebSocket_spec userID w) as [Hfresh Heq]. fold conn in Hfresh, Heq.
  split; [done|].
  set (w1 := mkWorld _ _ _) in Heq.
  assert (Hwf1 : registry_wf w1) by (by eapply HandleWebSocket_wf).
  assert (Hnew : heap w1 !! conn = Some (new_connection userID))
    by (simpl; by rewrite lookup_insert_eq).
  assert (Hconns : conns_of w1 userID = conns_of w userID ++ [conn])
    by (unfold conns_of at 1; simpl; by rewrite lookup_insert_eq).
  destruct (sendToUser_exact userID message w1 Hwf1)
    as (w2 & Hsend & _ & _ & Hheap).
  { intros q d Hq Hd. unfold registered_under in Hq. rewrite Hconns in Hq.
    apply elem_of_app in Hq as [Hq|Hq].
    - assert (q ≠ conn).
      { intros ->. destruct (registered_under_wf _ _ _ Hwf Hq) as (? & ? & _).
        congruence. }
      simpl in Hd. rewrite lookup_insert_ne in Hd by done. by eapply Hopen.
    - apply list_elem_of_singleton in Hq as ->.
      rewrite Hnew in Hd. by injection Hd as <-. }
  exists w1, w2. split; [done|]. split; [done|]. split; [done|].
  split; [done|]. rewrite Hheap, Hconns, decide_True, Hnew.
  - done.
  - apply elem_of_app. right. by apply list_elem_of_singleton.
Qed.

(** ** The writer after the queue is closed *)

Lemma run_app evs1 evs2 w :
  run w (evs1 ++ evs2) = (do w1 <- run w evs1; run w1 evs2).
Proof.
  revert w. induction evs1 as [|ev rest IH]; intros w; simpl; [done|].
  destruct (step w ev); simpl; [apply IH|done..].
Qed.

Lemma writePump_drains frames :
  ∀ w conn rd c,
    pumps w !! conn = Some (mkPumps rd true) → heap w !! conn = Some c →
    sock_closed (Conn c) = false → closed (Send c) = true →
    buf (Send c) = frames →
    run w (replicate (length frames) (WriteFrame conn true) ++ [WriterEnd conn]) =
      Ok (mkWorld (connections w)
            (<[conn := mkConnection (UserID c)
                         (mkSocket true (sock_written (Conn c) ++ frames))
                         (mkChan (cap (Send c)) [] true (sent (Send c)))]>
               (heap w))
            (<[conn := mkPumps rd false]> (pumps w))).
Proof.
  induction frames as [|message rest IH]; intros w conn rd c Hg Hc Hs Hcl Hb.
  - simpl. unfold writePump_end. rewrite Hg, Hc, Hb, Hcl. simpl.
    unfold set_writer. simpl. rewrite Hg. simpl.
    rewrite app_nil_r. destruct c as [u [sc sw] [cp b cl st]]. simpl in *.
    by subst.
  - simpl. unfold writePump_frame at 1. rewrite Hg, Hc, Hb.
    unfold WriteMessage. simpl. rewrite Hs. simpl.
    set (c1 := with_Conn _ _).
    rewrite (IH _ conn rd c1); simpl; try done.
    + rewrite insert_insert_eq. by rewrite <- app_assoc.
    + by rewrite lookup_insert_eq.
    + by rewrite Hb.
Qed.

(** X9: once the queue of a connection is closed, its writer, when its
    writes succeed, writes every frame still queued, in order, then leaves
    its loop and closes the socket: the run of that many writer steps and
    the end of the range ends in the state where exactly these frames were
    added to what was written, the queue is empty, the socket is closed and
    the writer has stopped. *)
Theorem writePump_drains_closed_queue
    (w : World) (conn : ptr) (rd : ReaderState) (c : Connection) :
  pumps w !! conn = Some (mkPumps rd true) → heap w !! conn = Some c →
  sock_closed (Conn c) = false → closed (Send c) = true →
  run w (replicate (length (buf (Send c))) (WriteFrame conn true)
         ++ [WriterEnd conn]) =
    Ok (mkWorld (connections w)
          (<[conn := mkConnection (UserID c)
                       (mkSocket true (sock_written (Conn c) ++ buf (Send c)))
                       (mkChan (cap (Send c)) [] true (sent (Send c)))]>
             (heap w))
          (<[conn := mkPumps rd false]> (pumps w))).
Proof. intros. by apply writePump_drains. Qed.

(** ** Ping, typing *)

(** X10: a decoded ping is answered on the connection's own queue, without
    the hub: with room in an open queue the encoded pong is put at its end
    and nothing else changes; with a full open queue the reader waits; with
    a closed queue the send panics. *)
Theorem ping_is_answered_on_own_queue
    (w : World) (conn : ptr) (c : Connection) (raw data : bytes)
    (m : WebSocketMessage Payload) :
  reading w conn → heap w !! conn = Some c →
  json_Unmarshal raw = Some m → Type_ m = "ping" →
  json_Marshal pong = Some data →
  (closed (Send c) = false → has_room (Send c) →
     readPump_frame conn raw w =
       Ok (set_heap w (<[conn := with_Send c (chan_push data (Send c))]> (heap w)))) ∧
  (closed (Send c) = false → is_full (Send c) →
     readPump_frame conn raw w = Blocked) ∧
  (closed (Send c) = true →
     readPump_frame conn raw w = Panic "send on closed channel").
Proof.
  intros Hread Hc Hu Ht Hm.
  destruct (readPump_frame_reading conn raw w Hread) as (c' & Hc' & ->).
  assert (c' = c) as -> by congruence.
  unfold readPump_handle. rewrite Hu, Ht, Hm. simpl.
  unfold chan_send, has_room, is_full.
  split; [|split].
  - intros -> Hroom. apply Nat.ltb_lt in Hroom. by rewrite Hroom.
  - intros -> Hfull. apply Nat.ltb_ge in Hfull. by rewrite Hfull.
  - by intros ->.
Qed.

(** X12: a decoded typing frame without a chat id reaches nobody: the hub
    takes the stamped frame, finds no chat id in it and drops it, and the
    state is as it was. *)
Theorem typing_without_chat_is_dropped
    (w : World) (conn : ptr) (c : Connection) (raw : bytes)
    (m : WebSocketMessage Payload) :
  reading w conn → heap w !! conn = Some c →
  json_Unmarshal raw = Some m → Type_ m = "typing" → ChatID m = "" →
  keeps_chat_id (stamp m (UserID c)) →
  readPump_frame conn raw w = Ok w.
Proof.
  intros Hread Hc Hu Ht Hchat Hkeep.
  destruct (readPump_frame_reading conn raw w Hread) as (c' & Hc' & ->).
  assert (c' = c) as -> by congruence.
  unfold readPump_handle. rewrite Hu, decide_True by done.
  destruct (json_Marshal (stamp m (UserID c))) as [data|] eqn:Hm; [|done].
  unfold hub_broadcast.
  destruct (json_Unmarshal data) as [m'|] eqn:Hd; [|done].
  rewrite (Hkeep _ _ Hm Hd). simpl. by rewrite Hchat.
Qed.

(** X13: a decoded typing frame with a chat id goes the way of a published
    message: the step of the reader is [broadcastToChat] for the chat of the
    frame with the stamped, re-encoded frame, so it reaches the connections
    of both users of the chat, the sender's own among them. *)
Theorem typing_is_broadcast_to_chat
    (w : World) (conn : ptr) (c : Connection) (raw data : bytes)
    (m : WebSocketMessage Payload) :
  reading w conn → heap w !! conn = Some c →
  json_Unmarshal raw = Some m → Type_ m = "typing" → ChatID m ≠ "" →
  json_Marshal (stamp m (UserID c)) = Some data →
  keeps_chat_id (stamp m (UserID c)) → is_Some (json_Unmarshal data) →
  readPump_frame conn raw w = broadcastToChat (ChatID m) data w.
Proof.
  intros Hread Hc Hu Ht Hchat Hm Hkeep [m' Hd].
  destruct (readPump_frame_reading conn raw w Hread) as (c' & Hc' & ->).
  assert (c' = c) as -> by congruence.
  unfold readPump_handle. rewrite Hu, decide_True, Hm by done.
  unfold hub_broadcast. rewrite Hd, (Hkeep _ _ Hm Hd). simpl.
  by rewrite decide_False.
Qed.

(** ** SendMessage and the hub's cases *)

(** X11: the answers of [SendMessage].  The status is one of 201, 400,
    401, 404 and 500; without a user in the context it is 401, whatever
    else the request holds; any answer other than 201 leaves the hub as it
    was; and 201 is given only after the message was stored, with the
    state [BroadcastMessage] left for the stored message. *)
Theorem SendMessage_answers (call : SendMessageCall) (w : World) :
  (call_user call = None → SendMessage call w = Ok (401, w)) ∧
  (∀ code w', SendMessage call w = Ok (code, w') →
     code ∈ [201; 400; 401; 404; 500] ∧
     (code ≠ 201 → w' = w) ∧
     (code = 201 →
        ∃ userID req messageID,
          persisted call userID req messageID ∧ database_DB ≠ None ∧
          BroadcastMessage (call_chatID call)
            (to_iface (stored_message call userID messageID req)) w = Ok w')).
Proof.
  unfold SendMessage. split; [by intros ->|].
  intros code w'.
  destruct (call_user call) as [userID|] eqn:Hu;
    [|intros [= <- <-]; split; [set_solver|done]].
  destruct (decide (call_chatID call = "")) as [Hchat|Hchat];
    [intros [= <- <-]; split; [set_solver|done]|].
  destruct (call_body call) as [req|] eqn:Hb;
    [|intros [= <- <-]; split; [set_solver|done]].
  destruct database_DB as [query|];
    [|intros [= <- <-]; split; [set_solver|done]].
  destruct (call_access call) as [[]|] eqn:Ha;
    [|intros [= <- <-]; split; [set_solver|done]..].
  destruct (call_insert call) as [messageID|] eqn:Hi;
    [|intros [= <- <-]; split; [set_solver|done]].
  simpl.
  match goal with |- context [bind ?x _] => destruct x as [w1| |] eqn:Hbm end;
    [|done..].
  simpl. intros [= <- <-]. split; [set_solver|]. split; [done|].
  intros _. exists userID, req, messageID. by repeat split.
Qed.

Lemma deliver_all_not_blocked message conns w :
  deliver_all message w conns ≠ Blocked.
Proof.
  revert w. induction conns as [|conn rest IH]; intros w; simpl; [done|].
  unfold deliver. destruct (heap w !! conn) as [c|]; [|done].
  unfold send_or_close, chan_close. destruct (closed (Send c)); [done|].
  destruct (length (buf (Send c)) <? cap (Send c)); simpl; apply IH.
Qed.

Lemma sendToUser_not_blocked userID message w :
  sendToUser userID message w ≠ Blocked.
Proof.
  unfold sendToUser. destruct (connections w !! userID); [|done].
  apply deliver_all_not_blocked.
Qed.

Lemma broadcastToChat_not_blocked chatID message w :
  broadcastToChat chatID message w ≠ Blocked.
Proof.
  unfold broadcastToChat. destruct database_DB as [query|]; [|done].
  destruct (query chatID) as [[user1ID user2ID]|]; [|done].
  destruct (sendToUser user1ID message w) eqn:H1; simpl; [|done|].
  - apply sendToUser_not_blocked.
  - by apply sendToUser_not_blocked in H1.
Qed.

Lemma hub_broadcast_not_blocked message w : hub_broadcast message w ≠ Blocked.
Proof.
  unfold hub_broadcast. destruct (json_Unmarshal message) as [m|]; [|done].
  case_decide; [done|]. apply broadcastToChat_not_blocked.
Qed.

Lemma BroadcastMessage_not_blocked chatID payload w :
  BroadcastMessage chatID payload w ≠ Blocked.
Proof.
  unfold BroadcastMessage. destruct (json_Marshal _); [|done].
  apply hub_broadcast_not_blocked.
Qed.

(** X20: the hub never waits.  None of the cases of [Hub.run], and none of
    the functions that run on the hub's goroutine or hand it a value, ends
    up waiting on a queue: [sendToUser] uses a send that never waits, so a
    slow client cannot stall the hub or the request that published. *)
Theorem hub_never_blocks (w : World) :
  (∀ conn, hub_register conn w ≠ Blocked) ∧
  (∀ conn, hub_unregister conn w ≠ Blocked) ∧
  (∀ userID message, sendToUser userID message w ≠ Blocked) ∧
  (∀ chatID message, broadcastToChat chatID message w ≠ Blocked) ∧
  (∀ message, hub_broadcast message w ≠ Blocked) ∧
  (∀ chatID payload, BroadcastMessage chatID payload w ≠ Blocked) ∧
  (∀ userID, HandleWebSocket userID w ≠ Blocked) ∧
  (∀ call, SendMessage call w ≠ Blocked).
Proof.
  split; [|split; [|split; [|split; [|split; [|split; [|split]]]]]].
  - intros conn. unfold hub_register. by destruct (heap w !! conn).
  - intros conn. unfold hub_unregister.
    destruct (heap w !! conn) as [c|]; [|done].
    destruct (connections w !! UserID c) as [conns|]; [|done].
    destruct (index_of conn conns).
    + unfold chan_close. destruct (closed (Send c)); [done|]. simpl.
      by case_decide.
    + simpl. by case_decide.
  - intros. apply sendToUser_not_blocked.
  - intros. apply broadcastToChat_not_blocked.
  - intros. apply hub_broadcast_not_blocked.
  - intros. apply BroadcastMessage_not_blocked.
  - intros userID. destruct (HandleWebSocket_spec userID w) as [_ ->]. done.
  - intros call. unfold SendMessage.
    destruct (call_user call); [|done]. case_decide; [done|].
    destruct (call_body call); [|done].
    pose proof (BroadcastMessage_not_blocked) as Hnb.
    destruct database_DB; [|done].
    destruct (call_access call) as [[]|]; [|done..].
    destruct (call_insert call); [|done].
    match goal with |- context [bind ?x _] => destruct x eqn:Hbm end;
      simpl; [done..|]. by apply Hnb in Hbm.
Qed.

(** X17: the registry changes only when a connection is accepted and when
    a reader leaves its loop: publishing, inbound frames, the steps of a
    writer and the reader's close leave the map of the hub as it is. *)
Theorem registry_changes_only_on_accept_and_exit
    (w w' : World) (ev : Event Payload) :
  step w ev = Ok w' →
  match ev with
  | Accept _ | ReadErr _ => True
  | _ => connections w' = connections w
  end.
Proof.
  destruct ev; simpl; intros Hstep; try done.
  - by apply BroadcastMessage_spec in Hstep as [? _].
  - by apply readPump_frame_spec in Hstep as [? _].
  - by apply readPump_close_spec in Hstep as [? _].
  - by apply writePump_frame_spec in Hstep as [? _].
  - by apply writePump_end_spec in Hstep as [? _].
Qed.

(** X21: only its writer writes to a socket.  When a step changes the
    frames written to the socket of a connection, the step is a successful
    write of that connection's own writer, and what it wrote is the frame
    at the head of the queue. *)
Theorem only_the_writer_writes
    (w w' : World) (ev : Event Payload) (conn : ptr) (c c' : Connection) :
  step w ev = Ok w' → heap w !! conn = Some c → heap w' !! conn = Some c' →
  sock_written (Conn c') ≠ sock_written (Conn c) →
  ev = WriteFrame conn true ∧
  ∃ message rest, buf (Send c) = message :: rest ∧ buf (Send c') = rest ∧
    sock_written (Conn c') = sock_written (Conn c) ++ [message].
Proof.
  intros Hstep Hc Hc' Hdiff.
  assert (Hquiet : heap_rel conn_quiet (heap w) (heap w') → False).
  { intros Hq. destruct (Hq _ _ Hc) as (d & Hd & _ & _ & Hw & _).
    assert (d = c') as -> by congruence. done. }
  destruct ev as [userID|chatID payload|q message|q|q|q ok|q];
    simpl in Hstep.
  - destruct Hquiet. by eapply HandleWebSocket_quiet.
  - destruct Hquiet. by eapply BroadcastMessage_quiet.
  - destruct Hquiet. by eapply readPump_frame_quiet.
  - destruct Hquiet. by eapply readPump_exit_quiet.
  - destruct Hquiet. by eapply readPump_close_quiet.
  - unfold writePump_frame in Hstep.
    destruct (pumps w !! q) as [[rd []]|] eqn:Hg; try done;
      destruct (heap w !! q) as [d|] eqn:Hd; try done.
    destruct (buf (Send d)) as [|message rest] eqn:Hb; [done|].
    unfold WriteMessage in Hstep. simpl in Hstep.
    destruct (decide (conn = q)) as [->|Hne].
    + assert (d = c) as -> by congruence.
      destruct (sock_closed (Conn c)) eqn:Hsc; [|destruct ok];
        injection Hstep as <-; rewrite ?heap_set_writer in Hc'; simpl in Hc';
        rewrite lookup_insert_eq in Hc'; injection Hc' as <-; try done.
      split; [done|]. exists message, rest. simpl. by rewrite Hb.
    + destruct (sock_closed (Conn d)) eqn:Hsc; [|destruct ok];
        injection Hstep as <-; rewrite ?heap_set_writer in Hc'; simpl in Hc';
        rewrite lookup_insert_ne in Hc' by done; congruence.
  - destruct Hquiet. by eapply writePump_end_quiet.
Qed.

(** X19: in every reachable state a user id is a key of the hub's map
    exactly when some connection is registered under it: the unregister case
    deletes the key with the last connection, so users who left take no
    room in the map. *)
Theorem registry_has_no_empty_slice (w : World) (userID : string) :
  reachable w →
  is_Some (connections w !! userID) ↔ ∃ conn, registered_under w userID conn.
Proof.
  intros Hreach. pose proof (reachable_registry_wf _ Hreach) as Hwf.
  unfold registered_under, conns_of. split.
  - intros [conns Hl]. rewrite Hl. simpl.
    destruct (Hwf _ _ Hl) as (Hne & _). destruct conns as [|conn rest]; [done|].
    exists conn. left.
  - intros [conn Hin]. destruct (connections w !! userID); [done|].
    by apply elem_of_nil in Hin.
Qed.

(** X18: the handler registers a connection only for the user of the
    context and only after the upgrade: without a user it answers 401 and
    the state is as it was; an entry of the registry that was not there
    before is the new connection, under the user id of the context. *)
Theorem HandleWebSocket_registers_only_the_caller
    (user : option string) (upgraded : bool) (w : World) :
  (user = None ∨ upgraded = false →
     snd (HandleWebSocket_handler user upgraded w) = Ok w) ∧
  (user = None →
     fst (HandleWebSocket_handler user upgraded w) =
       Some (mkResponse 401 (ErrorResponse false "User not found in context" 401))) ∧
  (∀ w' u q,
     snd (HandleWebSocket_handler user upgraded w) = Ok w' →
     registered_under w' u q → ¬ registered_under w u q →
     user = Some u ∧ upgraded = true ∧ q = fresh (dom (heap w)) ∧
     heap w' !! q = Some (new_connection u)).
Proof.
  unfold HandleWebSocket_handler. split; [|split].
  - intros [-> | ->]; [done|]. by destruct user.
  - by intros ->.
  - intros w' u q. destruct user as [userID|]; [|by intros [= <-]].
    destruct upgraded; [|by intros [= <-]]. simpl.
    destruct (HandleWebSocket_spec userID w) as [_ ->]. intros [= <-].
    unfold registered_under, conns_of. simpl.
    destruct (decide (u = userID)) as [->|Hne].
    + rewrite !lookup_insert_eq. simpl.
      intros [Hold| ->%list_elem_of_singleton]%elem_of_app Hnew; [done|].
      by rewrite lookup_insert_eq.
    + rewrite lookup_insert_ne by done. done.
Qed.

End Properties.

(** * GetMessages *)

Section GetMessagesProperties.

Context {Row : Type}.
Variable Atoi : string → option Z.
Variable database : option (ChatDB Row).

(** A statement of another kind is not in a list of statements. *)
Local Ltac absent_stmt :=
  match goal with
  | H : _ ∈ _ |- _ =>
      simpl in H;
      repeat (apply elem_of_cons in H as [H|H]; [discriminate H|]);
      by apply elem_of_nil in H
  end.

Lemma scan_rows_omap (rows : list (option Row)) (messages : list Row) :
  scan_rows rows messages = messages ++ omap id rows.
Proof.
  revert messages. induction rows as [|[row|] rest IH]; intros messages; simpl.
  - by rewrite app_nil_r.
  - rewrite IH. by rewrite <- app_assoc.
  - apply IH.
Qed.

(** X14: the page size and the offset of [GetMessages] are always in range,
    whatever the query parameters hold and whatever [strconv.Atoi] makes of
    them: the limit is between 1 and 100 and the offset is not negative; a
    missing, unreadable or out-of-range parameter gives the default, 50 or
    0, and never an error. *)
Theorem page_parameters_in_range (limitStr offsetStr : string) :
  (1 ≤ page_limit_of Atoi limitStr ≤ 100)%Z ∧
  (0 ≤ page_offset_of Atoi offsetStr)%Z ∧
  (page_limit_of Atoi limitStr ≠ 50%Z →
     limitStr ≠ "" ∧ Atoi limitStr = Some (page_limit_of Atoi limitStr)) ∧
  (page_offset_of Atoi offsetStr ≠ 0%Z →
     offsetStr ≠ "" ∧ Atoi offsetStr = Some (page_offset_of Atoi offsetStr)).
Proof.
  unfold page_limit_of, page_offset_of.
  destruct (decide (limitStr = "")); destruct (decide (offsetStr = ""));
    destruct (Atoi limitStr) as [l|]; destruct (Atoi offsetStr) as [o|];
    repeat case_decide; repeat split; try lia; try done.
Qed.

(** X15: what [GetMessages] asks the database.  Messages are selected
    only for the chat of the URL, only after the access query said that
    the user of the context belongs to the chat, and with a limit between
    1 and 100 and an offset that is not negative; messages are marked as
    read only in an answer with status 200, and for the user of the
    context. *)
Theorem GetMessages_statements (call : GetMessagesCall) :
  let stmts := snd (GetMessages Atoi database call) in
  (∀ chatID limit offset, SelectMessages chatID limit offset ∈ stmts →
     chatID = gm_chatID call ∧ (1 ≤ limit ≤ 100)%Z ∧ (0 ≤ offset)%Z ∧
     ∃ db userID, database = Some db ∧ gm_user call = Some userID ∧
       access_query db chatID userID = Some true) ∧
  (∀ chatID userID, MarkRead chatID userID ∈ stmts →
     chatID = gm_chatID call ∧ gm_user call = Some userID ∧
     statusCode (fst (GetMessages Atoi database call)) = 200).
Proof.
  pose proof (page_parameters_in_range (gm_limit call) (gm_offset call))
    as (Hl & Ho & _).
  unfold GetMessages.
  destruct (gm_user call) as [userID|]; [|split; intros; absent_stmt].
  destruct (decide (gm_chatID call = "")); [split; intros; absent_stmt|].
  destruct database as [db|]; [|split; intros; absent_stmt].
  destruct (access_query db (gm_chatID call) userID) as [[]|] eqn:Ha;
    [|split; intros; absent_stmt..].
  destruct (messages_query db _ _ _) as [rows|]; simpl; split.
  - intros chatID limit offset Hin.
    apply elem_of_cons in Hin as [Heq|Hin]; [discriminate|].
    apply elem_of_cons in Hin as [Heq|Hin].
    + injection Heq as -> -> ->. split; [done|]. split; [done|].
      split; [done|]. by exists db, userID.
    + apply elem_of_cons in Hin as [Heq|Hin]; [discriminate|].
      by apply elem_of_nil in Hin.
  - intros chatID u Hin.
    apply elem_of_cons in Hin as [Heq|Hin]; [discriminate|].
    apply elem_of_cons in Hin as [Heq|Hin]; [discriminate|].
    apply elem_of_cons in Hin as [Heq|Hin]; [|by apply elem_of_nil in Hin].
    by injection Heq as -> ->.
  - intros chatID limit offset Hin.
    apply elem_of_cons in Hin as [Heq|Hin]; [discriminate|].
    apply elem_of_cons in Hin as [Heq|Hin]; [|by apply elem_of_nil in Hin].
    injection Heq as -> -> ->. split; [done|]. split; [done|].
    split; [done|]. by exists db, userID.
  - intros chatID u Hin.
    apply elem_of_cons in Hin as [Heq|Hin]; [discriminate|].
    apply elem_of_cons in Hin as [Heq|Hin]; [discriminate|].
    by apply elem_of_nil in Hin.
Qed.

Lemma length_omap_id (rows : list (option Row)) :
  length (omap id rows) ≤ length rows.
Proof. induction rows as [|[row|] rest IH]; cbn; [lia|cbn in IH; lia..]. Qed.

(** X16: the answers of [GetMessages].  An answer with status 200 carries
    the rows that scanned, in the order of the database, with the rows that
    failed to scan left out, and its total is the number of messages it
    carries, which is at most the number of rows; every other answer is an
    error body with a message, whose code is the status written, one of 400,
    401, 404 and 500, and none of them comes with messages marked as read. *)
Theorem GetMessages_answers (call : GetMessagesCall) :
  let resp := fst (GetMessages Atoi database call) in
  let stmts := snd (GetMessages Atoi database call) in
  (∃ db userID rows,
     database = Some db ∧ gm_user call = Some userID ∧
     messages_query db (gm_chatID call) (page_limit_of Atoi (gm_limit call))
       (page_offset_of Atoi (gm_offset call)) = Some rows ∧
     resp = mkResponse 200
              (APIResponse true "Messages retrieved successfully"
                 (mkPage (omap id rows) (length (omap id rows))
                    (page_limit_of Atoi (gm_limit call))
                    (page_offset_of Atoi (gm_offset call)))) ∧
     length (omap id rows) ≤ length rows) ∨
  (∃ message code,
     resp = mkResponse code (ErrorResponse false message code) ∧
     code ∈ [400; 401; 404; 500] ∧ message ≠ "" ∧
     ∀ chatID userID, MarkRead chatID userID ∉ stmts).
Proof.
  unfold GetMessages.
  destruct (gm_user call) as [userID|];
    [|right; eexists _, _; split; [reflexivity|]; split; [set_solver|];
      split; [done|]; set_solver].
  destruct (decide (gm_chatID call = ""));
    [right; eexists _, _; split; [reflexivity|]; split; [set_solver|];
     split; [done|]; set_solver|].
  destruct database as [db|];
    [|right; eexists _, _; split; [reflexivity|]; split; [set_solver|];
      split; [done|]; set_solver].
  destruct (access_query db (gm_chatID call) userID) as [[]|];
    [|right; eexists _, _; split; [reflexivity|]; split; [set_solver|];
      split; [done|]; intros c u Hin;
      apply elem_of_cons in Hin as [Heq|Hin]; [discriminate|];
      by apply elem_of_nil in Hin..].
  destruct (messages_query db _ _ _) as [rows|] eqn:Hq; simpl.
  - left. exists db, userID, rows. split; [done|]. split; [done|].
    split; [done|]. split; [|apply length_omap_id].
    by rewrite scan_rows_omap.
  - right. eexists _, _. split; [reflexivity|]. split; [set_solver|].
    split; [done|]. intros c u Hin.
    apply elem_of_cons in Hin as [Heq|Hin]; [discriminate|].
    apply elem_of_cons in Hin as [Heq|Hin]; [discriminate|].
    by apply elem_of_nil in Hin.
Qed.

End GetMessagesProperties.

(** * The model at concrete inputs *)

Lemma demo_reachable (evs : list (Event string)) (w : World) :
  Demo.run' init evs = Ok w →
  reachable Demo.Marshal Demo.Unmarshal Demo.DB w.
Proof. intros Hrun. by exists evs. Qed.

Lemma demo_registry_wf (evs : list (Event string)) (w : World) :
  Demo.run' init evs = Ok w → registry_wf w.
Proof.
  intros Hrun.
  apply (reachable_registry_wf Demo.Marshal Demo.Unmarshal Demo.DB).
  by apply (demo_reachable evs).
Qed.

(** C1 at the failing input: alice's only connection holds 256 frames, the
    capacity of its queue.  The next [sendToUser] enqueues nothing, closes
    the queue, and returns with the connection still in the registry and its
    socket open; a further [sendToUser] panics. *)
Theorem overflow_leaves_connection_registered :
  let data := Demo.frame (new_message "chat-1" "hi") in
  let w := Demo.state_after Demo.slow_consumer in
  let w' := Demo.state_after (Demo.slow_consumer ++ [Publish "chat-1" "hi"]) in
  let queue := replicate 256 data in
  heap w !! 0 =
    Some (mkConnection "alice" open_socket (mkChan 256 queue false queue)) ∧
  sendToUser "alice" data w = Ok w' ∧
  registered_under w' "alice" 0 ∧
  heap w' !! 0 =
    Some (mkConnection "alice" open_socket (mkChan 256 queue true queue)) ∧
  sendToUser "alice" data w' = Panic "send on closed channel".
Proof.
  intros data w w' queue.
  split; [vm_compute; reflexivity|]. split; [vm_compute; reflexivity|].
  split; [|split; vm_compute; reflexivity].
  unfold registered_under.
  replace (conns_of w' "alice") with [0] by (vm_compute; reflexivity).
  apply list_elem_of_here.
Qed.

(** C2 at the failing input: after the overflow closed the queue of alice's
    connection, the unregister case finds the connection in the registry and
    closes the queue a second time, which panics.  The second formula is the
    whole run: the writer drains the 256 frames, finds the queue closed and
    closes the socket, the reader sees the error and hands the connection to
    [hub.unregister]. *)
Theorem unregister_after_overflow_closes_twice :
  let overflow := Demo.slow_consumer ++ [Publish "chat-1" "hi"] in
  hub_unregister 0 (Demo.state_after overflow) =
    Panic "close of closed channel" ∧
  Demo.run' init
    (overflow ++ replicate 256 (WriteFrame 0 true) ++ [WriterEnd 0; ReadErr 0]) =
    Panic "close of closed channel".
Proof.
  intros overflow. split; vm_compute; reflexivity.
Qed.

(** C3 as stated fails: registering a registered connection again leaves
    two entries for it. *)
Lemma register_again_makes_two_entries :
  ¬ (∀ (w : World) (conn : ptr) (c : Connection) (w' : World),
       reachable Demo.Marshal Demo.Unmarshal Demo.DB w →
       heap w !! conn = Some c →
       registered_under w (UserID c) conn →
       hub_register conn w = Ok w' →
       entries w' (UserID c) conn = 1).
Proof.
  intros Hclaim.
  set (w := Demo.state_after [Accept "alice"]).
  set (w' := match hub_register 0 w with Ok x => x | _ => init end).
  assert (Hone : entries w' "alice" 0 = 1).
  { apply (Hclaim w 0 (new_connection "alice") w').
    - apply (demo_reachable [Accept "alice"]). vm_compute. reflexivity.
    - vm_compute. reflexivity.
    - unfold registered_under.
      replace (conns_of w (UserID (new_connection "alice"))) with [0]
        by (vm_compute; reflexivity).
      apply list_elem_of_here.
    - vm_compute. reflexivity. }
  vm_compute in Hone. discriminate Hone.
Qed.

Lemma hub_register_adds_one_entry_witness :
  let w := Demo.state_after [Accept "alice"] in
  ∃ w', hub_register 0 w = Ok w' ∧ entries w' "alice" 0 = 2.
Proof.
  intros w.
  destruct (hub_register_adds_one_entry w 0 (new_connection "alice"))
    as (w' & Hreg & Hentries & _).
  - vm_compute. reflexivity.
  - exists w'. split; [exact Hreg|]. exact Hentries.
Defined.

(** C4 as stated fails: after the writer of alice's connection failed to
    write a frame and closed the socket, the connection is still in the
    registry. *)
Lemma closed_socket_stays_registered :
  ¬ (∀ w : World,
       reachable Demo.Marshal Demo.Unmarshal Demo.DB w →
       registry_sockets_open w).
Proof.
  intros Hclaim.
  set (w := Demo.state_after Demo.write_failed).
  set (c := mkConnection "alice" (mkSocket true [])
              (mkChan 256 [] false [Demo.frame pong])).
  assert (Hopen : sock_closed (Conn c) = false).
  { apply (Hclaim w) with (conn := 0).
    - apply (demo_reachable Demo.write_failed). vm_compute. reflexivity.
    - exists "alice". unfold registered_under.
      replace (conns_of w "alice") with [0] by (vm_compute; reflexivity).
      apply list_elem_of_here.
    - vm_compute. reflexivity. }
  discriminate Hopen.
Qed.

Lemma registered_under_own_user_only_witness :
  let w := Demo.state_after Demo.four_sessions in
  entries w "alice" 1 = 1 ∧
  ∀ userID', registered_under w userID' 1 → userID' = "alice".
Proof.
  intros w.
  destruct (registered_under_own_user_only
              Demo.Marshal Demo.Unmarshal Demo.DB w "alice" 1)
    as (_ & Hentries & Honly & _).
  - apply (demo_reachable Demo.four_sessions). vm_compute. reflexivity.
  - unfold registered_under.
    replace (conns_of w "alice") with [0; 1] by (vm_compute; reflexivity).
    apply list_elem_of_further, list_elem_of_here.
  - split; [exact Hentries|exact Honly].
Defined.

Lemma demo_keeps_chat_id (chatID payload : string) (m' : WebSocketMessage string) :
  Demo.Unmarshal (Demo.frame (new_message chatID payload)) = Some m' →
  ChatID m' = chatID →
  keeps_chat_id Demo.Marshal Demo.Unmarshal (new_message chatID payload).
Proof.
  intros Hu Hchat data m Hm Hd. injection Hm as <-.
  unfold Demo.frame in Hu. rewrite Hu in Hd. injection Hd as <-. exact Hchat.
Qed.

(** The scenario of the specification: alice holds the connections 0 and 1,
    bob holds 2, carol holds 3, and the chat is between alice and bob. *)
Lemma broadcast_reaches_exactly_participants_witness :
  let w := Demo.state_after Demo.four_sessions in
  let data := Demo.frame (new_message "chat-1" "hi") in
  ∃ w',
    BroadcastMessage Demo.Marshal Demo.Unmarshal Demo.DB "chat-1" "hi" w = Ok w' ∧
    heap w' !! 0 =
      Some (mkConnection "alice" open_socket (mkChan 256 [data] false [data])) ∧
    heap w' !! 1 =
      Some (mkConnection "alice" open_socket (mkChan 256 [data] false [data])) ∧
    heap w' !! 2 =
      Some (mkConnection "bob" open_socket (mkChan 256 [data] false [data])) ∧
    heap w' !! 3 = Some (new_connection "carol").
Proof.
  intros w data.
  assert (HA : conns_of w "alice" = [0; 1]) by (vm_compute; reflexivity).
  assert (HB : conns_of w "bob" = [2]) by (vm_compute; reflexivity).
  assert (H0 : heap w !! 0 = Some (new_connection "alice"))
    by (vm_compute; reflexivity).
  assert (H1 : heap w !! 1 = Some (new_connection "alice"))
    by (vm_compute; reflexivity).
  assert (H2 : heap w !! 2 = Some (new_connection "bob"))
    by (vm_compute; reflexivity).
  assert (H3 : heap w !! 3 = Some (new_connection "carol"))
    by (vm_compute; reflexivity).
  assert (Hin : ∀ conn,
            registered_under w "alice" conn ∨ registered_under w "bob" conn ↔
            conn = 0 ∨ conn = 1 ∨ conn = 2).
  { intros conn. unfold registered_under. rewrite HA, HB.
    rewrite !elem_of_cons, !elem_of_nil. tauto. }
  destruct (broadcast_reaches_exactly_participants
              Demo.Marshal Demo.Unmarshal Demo.DB "chat-1" "alice" "bob" w)
    as [Hall Hpub].
  - eexists. split; reflexivity.
  - discriminate.
  - apply (demo_registry_wf Demo.four_sessions). vm_compute. reflexivity.
  - intros conn c [-> | [-> | ->]]%Hin Hc.
    + rewrite H0 in Hc. injection Hc as <-. reflexivity.
    + rewrite H1 in Hc. injection Hc as <-. reflexivity.
    + rewrite H2 in Hc. injection Hc as <-. reflexivity.
  - destruct (Hall data) as (w' & Hrun & _ & Hheap).
    exists w'. split.
    { rewrite (Hpub "hi" data); [exact Hrun|reflexivity|discriminate| |].
      - eapply demo_keeps_chat_id; vm_compute; reflexivity.
      - vm_compute. eexists. reflexivity. }
    assert (Hroom : ∀ u, has_room (Send (new_connection u)))
      by (intros u; unfold has_room; simpl; lia).
    destruct (Hheap 0 _ H0) as (c0 & -> & Hc0 & _).
    destruct (Hheap 1 _ H1) as (c1 & -> & Hc1 & _).
    destruct (Hheap 2 _ H2) as (c2 & -> & Hc2 & _).
    destruct (Hheap 3 _ H3) as (c3 & -> & _ & _ & Hc3).
    rewrite Hc0, Hc1, Hc2, Hc3.
    + repeat split; reflexivity.
    + intros [Habs | [Habs | Habs]]%Hin; discriminate Habs.
    + apply Hin. auto.
    + apply Hroom.
    + apply Hin. auto.
    + apply Hroom.
    + apply Hin. auto.
    + apply Hroom.
Defined.

(** mallory's name in a typing frame read on alice's connection is replaced
    by alice's. *)
Lemma typing_is_stamped_with_connection_user_witness :
  let c := new_connection "alice" in
  readPump_handle Demo.Marshal Demo.Unmarshal c
    (Demo.typing_frame "chat-1" "mallory") =
    ToHub (Demo.typing_frame "chat-1" "alice") ∧
  readPump_handle Demo.Marshal Demo.Unmarshal c
    (Demo.typing_frame "chat-1" "bob") =
  readPump_handle Demo.Marshal Demo.Unmarshal c
    (Demo.typing_frame "chat-1" "mallory").
Proof.
  intros c.
  destruct (typing_is_stamped_with_connection_user
              Demo.Marshal Demo.Unmarshal Demo.DB c
              (Demo.typing_frame "chat-1" "mallory")
              (Demo.typing_frame "chat-1" "bob")
              (mkMsg "typing" "chat-1" None "mallory")
              (mkMsg "typing" "chat-1" None "bob"))
    as (Hstamp & Hsame & _); try (vm_compute; reflexivity).
  split; [rewrite Hstamp; vm_compute; reflexivity|exact Hsame].
Defined.

(** alice's message to a chat the lookup does not find is stored, not
    delivered, and answered with 201. *)
Lemma resolver_failure_drops_broadcast_witness :
  let w := Demo.state_after Demo.four_sessions in
  SendMessage Demo.to_iface Demo.Marshal Demo.Unmarshal Demo.DB
    (Demo.call_to "chat-9") w = Ok (201, w).
Proof.
  intros w.
  destruct (resolver_failure_drops_broadcast
              Demo.to_iface Demo.Marshal Demo.Unmarshal Demo.DB
              (Demo.call_to "chat-9") "alice" (mkMessageRequest "hi" "") "m-1" w)
    as (_ & _ & Hsend).
  - intros query Hq. injection Hq as <-. reflexivity.
  - discriminate.
  - repeat split. discriminate.
  - eapply demo_keeps_chat_id; vm_compute; reflexivity.
  - exact Hsend.
Defined.

(** A frame that is not JSON, read on alice's connection after a ping. *)
Lemma unknown_frames_dropped_and_never_sent_witness :
  let w := Demo.state_after [Accept "alice"; Inbound 0 Demo.ping_frame] in
  let garbage := String.list_byte_of_string "hello" in
  readPump_frame Demo.Marshal Demo.Unmarshal Demo.DB 0 garbage w = Ok w ∧
  known_frame Demo.Marshal (Demo.frame pong).
Proof.
  intros w garbage.
  destruct (unknown_frames_dropped_and_never_sent
              Demo.Marshal Demo.Unmarshal Demo.DB w) as [Hdrop Hknown].
  - apply (demo_reachable [Accept "alice"; Inbound 0 Demo.ping_frame]).
    vm_compute. reflexivity.
  - split.
    + apply Hdrop.
      * exists (mkPumps RRunning true),
          (mkConnection "alice" open_socket
             (mkChan 256 [Demo.frame pong] false [Demo.frame pong])).
        repeat split; vm_compute; reflexivity.
      * left. vm_compute. reflexivity.
    + apply (Hknown 0 (mkConnection "alice" open_socket
                         (mkChan 256 [Demo.frame pong] false [Demo.frame pong]))).
      * vm_compute. reflexivity.
      * left. apply list_elem_of_here.
Defined.

(** Two messages to the chat of alice and bob, the first already written to
    alice's socket. *)
Lemma writePump_writes_in_enqueue_order_witness :
  let w := Demo.state_after
             [Accept "alice"; Accept "bob"; Publish "chat-1" "one";
              Publish "chat-1" "two"; WriteFrame 0 true] in
  let one := Demo.frame (new_message "chat-1" "one") in
  let two := Demo.frame (new_message "chat-1" "two") in
  let c := mkConnection "alice" (mkSocket false [one])
             (mkChan 256 [two] false [one; two]) in
  heap w !! 0 = Some c ∧
  sock_written (Conn c) `prefix_of` sent (Send c) ∧
  sent (Send c) = sock_written (Conn c) ++ buf (Send c).
Proof.
  intros w one two c.
  assert (Hc : heap w !! 0 = Some c) by (vm_compute; reflexivity).
  destruct (writePump_writes_in_enqueue_order
              Demo.Marshal Demo.Unmarshal Demo.DB w) as [Horder _].
  - apply (demo_reachable
             [Accept "alice"; Accept "bob"; Publish "chat-1" "one";
              Publish "chat-1" "two"; WriteFrame 0 true]).
    vm_compute. reflexivity.
  - destruct (Horder 0 c Hc) as (Hprefix & _ & Hall).
    split; [exact Hc|]. split; [exact Hprefix|]. apply Hall.
    exists (mkPumps RRunning true). split; [vm_compute|]; reflexivity.
Defined.

(** A [new_message] frame sent by alice's client. *)
Lemma inbound_new_message_is_ignored_witness :
  let w := Demo.state_after Demo.four_sessions in
  let spoof := mkMsg "new_message" "chat-1" (Some "spoof") "bob" in
  readPump_frame Demo.Marshal Demo.Unmarshal Demo.DB 0 (Demo.frame spoof) w =
    Ok w.
Proof.
  intros w spoof.
  destruct (inbound_new_message_is_ignored
              Demo.Marshal Demo.Unmarshal Demo.DB w 0 (Demo.frame spoof) spoof)
    as (_ & Hsame & _).
  - exists (mkPumps RRunning true), (new_connection "alice").
    repeat split; vm_compute; reflexivity.
  - vm_compute. reflexivity.
  - left. reflexivity.
  - exact Hsame.
Defined.

(** * The further properties at concrete inputs *)

Lemma demo_keeps_chat_id_of (m m' : WebSocketMessage string) :
  Demo.Unmarshal (Demo.frame m) = Some m' → ChatID m' = ChatID m →
  keeps_chat_id Demo.Marshal Demo.Unmarshal m.
Proof.
  intros Hu Hchat data m0 Hm Hd. injection Hm as <-.
  unfold Demo.frame in Hu. rewrite Hu in Hd. injection Hd as <-. exact Hchat.
Qed.

(** alice's queue after 256 frames nobody took. *)
Lemma queue_never_exceeds_capacity_witness :
  let data := Demo.frame (new_message "chat-1" "hi") in
  let queue := replicate 256 data in
  let c := mkConnection "alice" open_socket (mkChan 256 queue false queue) in
  cap (Send c) = 256 ∧ length (buf (Send c)) ≤ 256.
Proof.
  intros data queue c.
  apply (queue_never_exceeds_capacity Demo.Marshal Demo.Unmarshal Demo.DB
           (Demo.state_after Demo.slow_consumer) 0 c).
  - apply (demo_reachable Demo.slow_consumer). vm_compute. reflexivity.
  - vm_compute. reflexivity.
Defined.

(** After alice's writer closed the socket: a message to her chat, then her
    reader leaves. *)
Lemma closed_stays_closed_witness :
  let w' := Demo.state_after
              (Demo.write_failed ++
               [Publish "chat-1" "hi"; ReadErr 0; ReaderClose 0]) in
  ∃ c', heap w' !! 0 = Some c' ∧
    sock_closed (Conn c') = true ∧ sock_written (Conn c') = [].
Proof.
  intros w'.
  destruct (closed_stays_closed Demo.Marshal Demo.Unmarshal Demo.DB
              [Publish "chat-1" "hi"; ReadErr 0; ReaderClose 0]
              (Demo.state_after Demo.write_failed) w' 0
              (mkConnection "alice" (mkSocket true [])
                 (mkChan 256 [] false [Demo.frame pong])))
    as (c' & Hc' & _ & Hsock & _).
  - vm_compute. reflexivity.
  - vm_compute. reflexivity.
  - exists c'. split; [exact Hc'|]. apply Hsock. reflexivity.
Defined.

Lemma stopped_pump_has_closed_socket_witness :
  let c := mkConnection "alice" (mkSocket true [])
             (mkChan 256 [] false [Demo.frame pong]) in
  heap (Demo.state_after Demo.write_failed) !! 0 = Some c ∧
  sock_closed (Conn c) = true.
Proof.
  intros c.
  assert (Hc : heap (Demo.state_after Demo.write_failed) !! 0 = Some c)
    by (vm_compute; reflexivity).
  split; [exact Hc|].
  apply (stopped_pump_has_closed_socket Demo.Marshal Demo.Unmarshal Demo.DB
           (Demo.state_after Demo.write_failed) 0 (mkPumps RRunning false) c).
  - apply (demo_reachable Demo.write_failed). vm_compute. reflexivity.
  - vm_compute. reflexivity.
  - exact Hc.
  - left. reflexivity.
Defined.


Lemma unregistered_connection_gets_no_frame_witness :
  let w := Demo.state_after Demo.four_sessions in
  let w1 := match hub_unregister 0 w with Ok x => x | _ => init end in
  hub_unregister 0 w = Ok w1 ∧ ¬ registered w1 0 ∧
  ∀ message w2, broadcastToChat Demo.DB "chat-1" message w1 = Ok w2 →
    heap w2 !! 0 = heap w1 !! 0.
Proof.
  intros w w1.
  assert (Hun : hub_unregister 0 w = Ok w1) by (vm_compute; reflexivity).
  destruct (unregistered_connection_gets_no_frame Demo.DB w w1 0)
    as (Hgone & _ & Hchat).
  - apply (demo_registry_wf Demo.four_sessions). vm_compute. reflexivity.
  - exact Hun.
  - split; [exact Hun|]. split; [exact Hgone|]. apply Hchat.
Defined.

Lemma hub_unregister_removes_first_entry_witness :
  let w := Demo.state_after Demo.four_sessions in
  ∃ w', hub_unregister 0 w = Ok w' ∧ connections w' !! "alice" = Some [1].
Proof.
  intros w.
  pose proof (hub_unregister_removes_first_entry w 0
                (new_connection "alice") [] [1]) as Hun.
  eexists. split.
  - apply Hun.
    + vm_compute. reflexivity.
    + vm_compute. reflexivity.
    + apply not_elem_of_nil.
    + reflexivity.
  - simpl. apply lookup_insert_eq.
Defined.

(** alice's first connection after its reader has left. *)
Lemma hub_unregister_unknown_is_noop_witness :
  let w := Demo.state_after (Demo.four_sessions ++ [ReadErr 0]) in
  hub_unregister 0 w = Ok w.
Proof.
  intros w.
  apply (hub_unregister_unknown_is_noop w 0
           (mkConnection "alice" open_socket (mkChan 256 [] true []))).
  - vm_compute. reflexivity.
  - unfold registered_under.
    replace (conns_of w "alice") with [1] by (vm_compute; reflexivity).
    intros [Heq|Hin]%elem_of_cons; [discriminate Heq|].
    by apply elem_of_nil in Hin.
  - replace (connections w !! "alice") with (Some [1])
      by (vm_compute; reflexivity).
    discriminate.
Defined.

Lemma register_then_send_reaches_new_connection_witness :
  let w := Demo.state_after Demo.four_sessions in
  let conn := fresh (dom (heap w)) in
  ∃ w1 w2,
    HandleWebSocket "alice" w = Ok w1 ∧
    sendToUser "alice" Demo.ping_frame w1 = Ok w2 ∧
    heap w2 !! conn =
      Some (with_Send (new_connection "alice")
              (chan_push Demo.ping_frame (make_chan 256))).
Proof.
  intros w conn.
  destruct (register_then_send_reaches_new_connection w "alice" Demo.ping_frame)
    as (_ & w1 & w2 & Hreg & _ & _ & Hsend & Hnew).
  - apply (demo_registry_wf Demo.four_sessions). vm_compute. reflexivity.
  - intros q d Hq Hd. unfold registered_under in Hq.
    replace (conns_of w "alice") with [0; 1] in Hq by (vm_compute; reflexivity).
    apply elem_of_cons in Hq as [-> | Hq].
    + assert (Some d = Some (new_connection "alice")) as Heq
        by (rewrite <- Hd; vm_compute; reflexivity).
      injection Heq as ->. reflexivity.
    + apply elem_of_cons in Hq as [-> | Hq]; [|by apply elem_of_nil in Hq].
      assert (Some d = Some (new_connection "alice")) as Heq
        by (rewrite <- Hd; vm_compute; reflexivity).
      injection Heq as ->. reflexivity.
  - exists w1, w2. split; [exact Hreg|]. split; [exact Hsend|exact Hnew].
Defined.

(** alice's queue after the overflow closed it: 256 frames are waiting. *)
Lemma writePump_drains_closed_queue_witness :
  let data := Demo.frame (new_message "chat-1" "hi") in
  let queue := replicate 256 data in
  let w := Demo.state_after (Demo.slow_consumer ++ [Publish "chat-1" "hi"]) in
  Demo.run' w (replicate 256 (WriteFrame 0 true) ++ [WriterEnd 0]) =
    Ok (mkWorld (connections w)
          (<[0 := mkConnection "alice" (mkSocket true queue)
                    (mkChan 256 [] true queue)]> (heap w))
          (<[0 := mkPumps RRunning false]> (pumps w))).
Proof.
  intros data queue w.
  apply (writePump_drains_closed_queue Demo.Marshal Demo.Unmarshal Demo.DB
           w 0 RRunning
           (mkConnection "alice" open_socket (mkChan 256 queue true queue))).
  - vm_compute. reflexivity.
  - vm_compute. reflexivity.
  - reflexivity.
  - reflexivity.
Defined.

Lemma ping_is_answered_on_own_queue_witness :
  let w := Demo.state_after [Accept "alice"] in
  let c := new_connection "alice" in
  readPump_frame Demo.Marshal Demo.Unmarshal Demo.DB 0 Demo.ping_frame w =
    Ok (set_heap w
          (<[0 := with_Send c (chan_push (Demo.frame pong) (Send c))]> (heap w))).
Proof.
  intros w c.
  destruct (ping_is_answered_on_own_queue Demo.Marshal Demo.Unmarshal Demo.DB
              w 0 c Demo.ping_frame (Demo.frame pong) (mkMsg "ping" "" None ""))
    as (Hroom & _ & _).
  - exists (mkPumps RRunning true), c. repeat split; vm_compute; reflexivity.
  - vm_compute. reflexivity.
  - vm_compute. reflexivity.
  - reflexivity.
  - reflexivity.
  - apply Hroom; [reflexivity|]. unfold has_room. simpl. lia.
Defined.

Lemma typing_without_chat_is_dropped_witness :
  let w := Demo.state_after Demo.four_sessions in
  readPump_frame Demo.Marshal Demo.Unmarshal Demo.DB 0
    (Demo.typing_frame "" "mallory") w = Ok w.
Proof.
  intros w.
  apply (typing_without_chat_is_dropped Demo.Marshal Demo.Unmarshal Demo.DB
           w 0 (new_connection "alice") (Demo.typing_frame "" "mallory")
           (mkMsg "typing" "" None "mallory")).
  - exists (mkPumps RRunning true), (new_connection "alice").
    repeat split; vm_compute; reflexivity.
  - vm_compute. reflexivity.
  - vm_compute. reflexivity.
  - reflexivity.
  - reflexivity.
  - eapply demo_keeps_chat_id_of; vm_compute; reflexivity.
Defined.

Lemma typing_is_broadcast_to_chat_witness :
  let w := Demo.state_after Demo.four_sessions in
  readPump_frame Demo.Marshal Demo.Unmarshal Demo.DB 0
    (Demo.typing_frame "chat-1" "mallory") w =
  broadcastToChat Demo.DB "chat-1" (Demo.typing_frame "chat-1" "alice") w.
Proof.
  intros w.
  apply (typing_is_broadcast_to_chat Demo.Marshal Demo.Unmarshal Demo.DB
           w 0 (new_connection "alice") (Demo.typing_frame "chat-1" "mallory")
           (Demo.typing_frame "chat-1" "alice")
           (mkMsg "typing" "chat-1" None "mallory")).
  - exists (mkPumps RRunning true), (new_connection "alice").
    repeat split; vm_compute; reflexivity.
  - vm_compute. reflexivity.
  - vm_compute. reflexivity.
  - reflexivity.
  - discriminate.
  - vm_compute. reflexivity.
  - eapply demo_keeps_chat_id_of; vm_compute; reflexivity.
  - vm_compute. eexists. reflexivity.
Defined.

Lemma registry_changes_only_on_accept_and_exit_witness :
  connections
    (Demo.state_after (Demo.four_sessions ++ [Publish "chat-1" "hi"])) =
  connections (Demo.state_after Demo.four_sessions).
Proof.
  apply (registry_changes_only_on_accept_and_exit
           Demo.Marshal Demo.Unmarshal Demo.DB
           (Demo.state_after Demo.four_sessions)
           (Demo.state_after (Demo.four_sessions ++ [Publish "chat-1" "hi"]))
           (Publish "chat-1" "hi")).
  vm_compute. reflexivity.
Defined.

(** carol has left; alice is still there. *)
Lemma registry_has_no_empty_slice_witness :
  let w := Demo.state_after (Demo.four_sessions ++ [ReadErr 3]) in
  is_Some (connections w !! "alice").
Proof.
  intros w.
  apply (registry_has_no_empty_slice Demo.Marshal Demo.Unmarshal Demo.DB
           w "alice").
  - apply (demo_reachable (Demo.four_sessions ++ [ReadErr 3])).
    vm_compute. reflexivity.
  - exists 0. unfold registered_under.
    replace (conns_of w "alice") with [0; 1] by (vm_compute; reflexivity).
    apply list_elem_of_here.
Defined.

Lemma only_the_writer_writes_witness :
  let c := mkConnection "alice" open_socket
             (mkChan 256 [Demo.frame pong] false [Demo.frame pong]) in
  let c' := mkConnection "alice" (mkSocket false [Demo.frame pong])
              (mkChan 256 [] false [Demo.frame pong]) in
  ∃ message rest, buf (Send c) = message :: rest ∧ buf (Send c') = rest ∧
    sock_written (Conn c') = sock_written (Conn c) ++ [message].
Proof.
  intros c c'.
  apply (only_the_writer_writes Demo.Marshal Demo.Unmarshal Demo.DB
           (Demo.state_after [Accept "alice"; Inbound 0 Demo.ping_frame])
           (Demo.state_after
              [Accept "alice"; Inbound 0 Demo.ping_frame; WriteFrame 0 true])
           (WriteFrame 0 true) 0 c c').
  - vm_compute. reflexivity.
  - vm_compute. reflexivity.
  - vm_compute. reflexivity.
  - discriminate.
Defined.
